(** * Cluster metadata persistence (metadata/cluster.go)

    A shallow embedding of the cluster codec and of the six lifecycle
    operations of [metadata/cluster.go], over a functional model of the
    transactional key-value store (bbolt) the package is written against.

    Conventions of the embedding.
    - Go strings and byte slices are [string]: a sequence of bytes.
    - Go's [int] is the 64-bit [int]; it is a [Z] and the places where the
      machine integer wraps are written with [wrap64].
    - A [*bolt.Bucket] handle aliases a subtree of the transaction.  The
      embedding passes the subtree as a value, and a function that mutates
      the handle returns the new subtree, which its caller stores back into
      the parent ([bkt_store]).
    - [time.Now().UTC()] is an explicit argument of the operations.
    - An operation that can fail returns a [result]; a transaction that
      fails is rolled back ([db_Update]).
    - The store's resource limits (key and value sizes, I/O failures) and
      the cancellation of the execution context are outside the model. *)

From Stdlib Require Import ZArith String Ascii Lia.
From stdpp Require Import gmap strings list fin_maps sorting.

#[local] Set Warnings "-register-all".
#[local] Open Scope string_scope.
#[local] Open Scope Z_scope.

(** ** Errors *)

(** [strconv.ErrSyntax] and [strconv.ErrRange]. *)
Inductive numError : Type := ErrSyntax | ErrRange.

(** The error values that travel through the package: the three [errdefs]
    sentinels, the store's sentinels, [*strconv.NumError], an error of a
    collaborator (identifier validation, the time and peer codecs), and
    [errors.Wrapf cause format arg].  [Panic] is not an error value: it
    stands for the goroutine panicking on a nil bucket handle. *)
Inductive error : Type :=
| ErrNotFound
| ErrAlreadyExists
| ErrInvalidArgument
| ErrBucketExists
| ErrBucketNotFound
| ErrBucketNameRequired
| ErrIncompatibleValue
| ErrKeyRequired
| NumError (func num : string) (err : numError)
| ErrForeign (msg : string)
| Panic
| Wrapf (cause : error) (format arg : string).

#[global] Instance numError_eq_dec : EqDecision numError.
Proof. solve_decision. Defined.

#[global] Instance error_eq_dec : EqDecision error.
Proof. solve_decision. Defined.

(** [errors.Cause]: the innermost error under the [Wrapf] annotations. *)
Fixpoint Cause (e : error) : error :=
  match e with
  | Wrapf c _ _ => Cause c
  | _ => e
  end.

(** The classification of the error taxonomy: [errdefs.IsNotFound],
    [errdefs.IsAlreadyExists], [errdefs.IsInvalidArgument], and the
    format error of stored data that does not parse. *)
Definition IsNotFound (e : error) : Prop := Cause e = ErrNotFound.
Definition IsAlreadyExists (e : error) : Prop := Cause e = ErrAlreadyExists.
Definition IsInvalidArgument (e : error) : Prop := Cause e = ErrInvalidArgument.
Definition IsFormatError (e : error) : Prop :=
  match Cause e with NumError _ _ _ => True | _ => False end.

Inductive result (A : Type) : Type :=
| Ok (a : A)
| Err (e : error).
Arguments Ok {A} a.
Arguments Err {A} e.

Definition bind {A B : Type} (m : result A) (k : A → result B) : result B :=
  match m with
  | Ok a => k a
  | Err e => Err e
  end.

Notation "'do' x <- m ; k" := (bind m (fun x => k))
  (at level 10, x pattern, m at level 100, k at level 200,
   format "'[v' 'do'  x  <-  m ; '/' k ']'").

Definition is_ok {A : Type} (m : result A) : Prop :=
  match m with Ok _ => True | Err _ => False end.

(** ** strconv *)

Module strconv.

Definition maxUint64 : Z := 2 ^ 64 - 1.

(** Conversion of a [uint64] bit pattern to [int64], and [int64]
    arithmetic: the value modulo [2^64], read as signed. *)
Definition wrap64 (z : Z) : Z := (z + 2 ^ 63) mod 2 ^ 64 - 2 ^ 63.

Definition byte_of (c : ascii) : Z := Z.of_N (N_of_ascii c).

(** The decimal digit [d] (0..9) as a byte. *)
Definition digit_char (d : Z) : ascii := ascii_of_N (Z.to_N (48 + d)).

(** Digits of [u], least significant first, pushed in front of [acc]:
    the division loop of [formatBits]. *)
Fixpoint utoa (fuel : nat) (u : Z) (acc : string) : string :=
  let acc' := String (digit_char (u mod 10)) acc in
  match fuel with
  | O => acc'
  | S f => if u <? 10 then acc' else utoa f (u / 10) acc'
  end.

Definition formatUint (u : Z) : string := utoa (Z.to_nat (Z.log2 u)) u EmptyString.

(** [strconv.Itoa]: decimal text, with a leading minus for negatives. *)
Definition Itoa (i : Z) : string :=
  if i <? 0 then String "-" (formatUint (- i)) else formatUint i.

(** The fast path of [Atoi]: [ch -= '0'; if ch > 9 { syntax error }],
    on bytes, and [n = n*10 + int(ch)] on [int]. *)
Fixpoint atoi_loop (s : string) (n : Z) : result Z :=
  match s with
  | EmptyString => Ok n
  | String ch s' =>
      let d := (byte_of ch - 48) mod 256 in
      if 9 <? d then Err (NumError "Atoi" EmptyString ErrSyntax)
      else atoi_loop s' (wrap64 (n * 10 + d))
  end.

(** The loop of [ParseUint] for base 10 and bit size 64. *)
Fixpoint parseUint_loop (s : string) (n : Z) : numError + Z :=
  match s with
  | EmptyString => inr n
  | String c s' =>
      let b := byte_of c in
      if (48 <=? b) && (b <=? 57) then
        let d := b - 48 in
        if maxUint64 / 10 + 1 <=? n then inl ErrRange
        else
          let n10 := n * 10 in
          let n1 := n10 + d in
          if maxUint64 <? n1 then inl ErrRange
          else parseUint_loop s' n1
      else inl ErrSyntax
  end.

Definition ParseUint (s : string) : numError + Z :=
  match s with
  | EmptyString => inl ErrSyntax
  | _ => parseUint_loop s 0
  end.

(** [ParseInt s 10 0], the error reduced to its kind. *)
Definition ParseInt (s : string) : numError + Z :=
  match s with
  | EmptyString => inl ErrSyntax
  | String c s' =>
      let neg := bool_decide (c = "-"%char) in
      let body := if bool_decide (c = "+"%char) || neg then s' else s in
      let cutoff := 2 ^ 63 in
      let checked (un : Z) :=
        if negb neg && (cutoff <=? un) then inl ErrRange
        else if neg && (cutoff <? un) then inl ErrRange
        else inr (if neg then wrap64 (- wrap64 un) else wrap64 un) in
      match ParseUint body with
      | inl ErrSyntax => inl ErrSyntax
      | inl ErrRange => checked maxUint64
      | inr un => checked un
      end
  end.

(** [strconv.Atoi] on a 64-bit platform. *)
Definition Atoi (s : string) : result Z :=
  let sLen := Z.of_nat (String.length s) in
  if (0 <? sLen) && (sLen <? 19) then
    match s with
    | EmptyString => Err (NumError "Atoi" s ErrSyntax)
    | String c s' =>
        let signed := bool_decide (c = "-"%char) || bool_decide (c = "+"%char) in
        let body := if signed then s' else s in
        if signed && (Z.of_nat (String.length body) <? 1)
        then Err (NumError "Atoi" s ErrSyntax)
        else
          match atoi_loop body 0 with
          | Err _ => Err (NumError "Atoi" s ErrSyntax)
          | Ok n => Ok (if bool_decide (c = "-"%char) then wrap64 (- n) else n)
          end
    end
  else
    match ParseInt s with
    | inl k => Err (NumError "Atoi" s k)
    | inr i64 => Ok i64
    end.

(** The texts [Atoi] can accept: an optional sign and at least one
    decimal digit. *)
Definition is_digit (c : ascii) : bool :=
  (48 <=? byte_of c) && (byte_of c <=? 57).

Fixpoint all_digits (s : string) : bool :=
  match s with
  | EmptyString => true
  | String c s' => is_digit c && all_digits s'
  end.

Definition is_decimal_text (s : string) : bool :=
  match s with
  | EmptyString => false
  | String c s' =>
      if bool_decide (c = "-"%char) || bool_decide (c = "+"%char)
      then negb (bool_decide (s' = EmptyString)) && all_digits s'
      else all_digits s
  end.

Definition in_int64 (z : Z) : Prop := - 2 ^ 63 <= z < 2 ^ 63.

(** *** Reading decimal text without bounds

    What the facts about [Itoa] and [Atoi] are stated with. *)

(** Whether the text starts with a decimal digit. *)
Definition head_digit (s : string) : bool :=
  match s with
  | String c _ => is_digit c
  | EmptyString => false
  end.

(** The value of a run of decimal digits, without any bound: the
    reading that [Atoi] computes as long as nothing overflows. *)
Fixpoint digits_value (s : string) (n : Z) : Z :=
  match s with
  | EmptyString => n
  | String c s' => digits_value s' (n * 10 + (byte_of c - 48))
  end.

(** [enough f u]: the fuel [f] lets [utoa] print all the digits of
    [u]. *)
Definition enough (f : nat) (u : Z) : Prop := 0 <= u < 2 ^ Z.of_nat (S f).

(** The integer a text of [Itoa] stands for. *)
Definition Itoa_value (s : string) : Z :=
  match s with
  | String c s' =>
      if bool_decide (c = "-"%char) then - digits_value s' 0 else digits_value s 0
  | EmptyString => 0
  end.

End strconv.

Example Itoa_examples :
  strconv.Itoa 0 = "0" ∧ strconv.Itoa 7 = "7" ∧ strconv.Itoa 1000 = "1000"
  ∧ strconv.Itoa (-42) = "-42"
  ∧ strconv.Itoa (2 ^ 63 - 1) = "9223372036854775807"
  ∧ strconv.Itoa (- 2 ^ 63) = "-9223372036854775808".
Proof. vm_compute. repeat split. Qed.

Example Atoi_examples :
  strconv.Atoi "12" = Ok 12 ∧ strconv.Atoi "-007" = Ok (-7)
  ∧ strconv.Atoi "+5" = Ok 5
  ∧ strconv.Atoi EmptyString = Err (NumError "Atoi" EmptyString ErrSyntax)
  ∧ strconv.Atoi "-" = Err (NumError "Atoi" "-" ErrSyntax)
  ∧ strconv.Atoi "1x" = Err (NumError "Atoi" "1x" ErrSyntax)
  ∧ strconv.Atoi "9223372036854775807" = Ok (2 ^ 63 - 1)
  ∧ strconv.Atoi "9223372036854775808"
    = Err (NumError "Atoi" "9223372036854775808" ErrRange)
  ∧ strconv.Atoi "-9223372036854775808" = Ok (- 2 ^ 63)
  ∧ strconv.Atoi "99999999999999999999999x"
    = Err (NumError "Atoi" "99999999999999999999999x" ErrRange).
Proof. vm_compute. repeat split. Qed.

(** ** The store: nested containers of flat fields *)

(** What a key of a bucket holds: a flat value or a nested bucket. *)
Inductive Node : Type :=
| Val (v : string)
| Sub (m : gmap string Node).

Abbreviation Bkt := (gmap string Node).

(** The root of a transaction holds buckets only. *)
Abbreviation DB := (gmap string (gmap string Node)).

Module bolt.

(** [b.Bucket(name)]: nil unless [name] holds a nested bucket. *)
Definition Bucket (b : Bkt) (name : string) : option Bkt :=
  match b !! name with
  | Some (Sub m) => Some m
  | _ => None
  end.

(** [b.Get(key)]: nil if the key is absent or holds a nested bucket. *)
Definition Get (b : Bkt) (key : string) : option string :=
  match b !! key with
  | Some (Val v) => Some v
  | _ => None
  end.

Definition Put (b : Bkt) (key value : string) : result Bkt :=
  if bool_decide (key = EmptyString) then Err ErrKeyRequired
  else match b !! key with
       | Some (Sub _) => Err ErrIncompatibleValue
       | _ => Ok (<[key := Val value]> b)
       end.

(** [b.CreateBucket(key)]: the parent with the new, empty child, and the
    child. *)
Definition CreateBucket (b : Bkt) (key : string) : result (Bkt * Bkt) :=
  if bool_decide (key = EmptyString) then Err ErrBucketNameRequired
  else match b !! key with
       | Some (Sub _) => Err ErrBucketExists
       | Some (Val _) => Err ErrIncompatibleValue
       | None => Ok (<[key := Sub ∅]> b, ∅)
       end.

Definition DeleteBucket (b : Bkt) (key : string) : result Bkt :=
  match b !! key with
  | None => Err ErrBucketNotFound
  | Some (Val _) => Err ErrIncompatibleValue
  | Some (Sub _) => Ok (delete key b)
  end.

(** The cursor visits the keys in byte order; it yields a nil value for
    a key that holds a nested bucket. *)
Definition key_le (x y : string * Node) : Prop := String.leb x.1 y.1 = true.

#[global] Instance key_le_dec : ∀ x y, Decision (key_le x y).
Proof. intros x y. unfold key_le. apply _. Defined.

Definition flat (n : Node) : option string :=
  match n with
  | Val v => Some v
  | Sub _ => None
  end.

Definition sorted (b : Bkt) : list (string * Node) :=
  merge_sort key_le (map_to_list b).

Definition cursor (b : Bkt) : list (string * option string) :=
  (λ kn : string * Node, (kn.1, flat kn.2)) <$> sorted b.

(** [for k, v := c.First(); k != nil; k, v = c.Next()], stopping at the
    first error of [fn]; [fn] threads the variables it captures as [s]. *)
Fixpoint for_each {S : Type} (es : list (string * option string))
    (fn : string → option string → S → result S) (s : S) : result S :=
  match es with
  | [] => Ok s
  | (k, v) :: es' => do s' <- fn k v s; for_each es' fn s'
  end.

Definition ForEach {S : Type} (b : Bkt)
    (fn : string → option string → S → result S) (s : S) : result S :=
  for_each (cursor b) fn s.

End bolt.

(** A mutated child handle, seen from its parent. *)
Definition bkt_store (parent : Bkt) (key : string) (child : Bkt) : Bkt :=
  <[key := Sub child]> parent.

(** [string(v)] of a possibly nil byte slice. *)
Definition string_of (v : option string) : string := default EmptyString v.

(** ** Collaborators outside [cluster.go] *)

(** Instants are counted in nanoseconds from Go's zero [time.Time]. *)
Abbreviation Time := Z.

(** Modelled from the spec: the parts of the package that [cluster.go]
    calls and that the spec leaves opaque are parameters of the
    development: the opaque type [PeerDefinition] with its codec into the
    flat fields of its own container, the identifier format rule
    [ValidateClusterID] (nil or an error), and the text format of a
    timestamp. *)
Class Collaborators (PeerDefinition : Type) : Type := {
  ValidateClusterID : string → option error;
  marshalTime : Time → result string;
  unmarshalTime : string → result Time;
  encodePeer : PeerDefinition → result Bkt;
  decodePeer : Bkt → result PeerDefinition;
}.

(** What the codec of a collaborator owes: decoding inverts encoding. *)
Class CodecLaws {PeerDefinition : Type} `{!Collaborators PeerDefinition} : Prop := {
  time_roundtrip : ∀ t s, marshalTime t = Ok s → unmarshalTime s = Ok t;
  peer_roundtrip : ∀ p b, encodePeer p = Ok b → decodePeer b = Ok p;
}.

(** Modelled from the spec: the reserved keys (their declarations are
    outside [cluster.go]).  The spec names the clusters collection and the
    keys "definition", "labels", "id" and "status"; the keys of the size,
    instance-type, region and timestamp fields are reserved and distinct. *)
Definition bucketKeyClusters : string := "clusters".
Definition bucketKeyDefinition : string := "definition".
Definition bucketKeyLabels : string := "labels".
Definition bucketKeyID : string := "id".
Definition bucketKeyStatus : string := "status".
Definition bucketKeySize : string := "size".
Definition bucketKeyInstanceType : string := "instanceType".
Definition bucketKeyRegion : string := "region".
Definition bucketKeyCreatedAt : string := "createdAt".
Definition bucketKeyUpdatedAt : string := "updatedAt".

(** ** Transactions *)

(** [m.Update(ctx, fn)]: [fn] runs on the transaction; its error rolls the
    transaction back, its success commits it. *)
Definition db_Update {A : Type} (fn : DB → result (DB * A)) (s : DB)
    : DB * result A :=
  match fn s with
  | Ok (s', a) => (s', Ok a)
  | Err e => (s, Err e)
  end.

(** [m.View(ctx, fn)]: a read-only transaction. *)
Definition db_View {A : Type} (fn : DB → result A) (s : DB) : result A := fn s.

(** Modelled from the spec: [getClustersBucket] locates the clusters
    collection read-only, [createClustersBucket] creates it lazily (§4.1). *)
Definition getClustersBucket (tx : DB) : option Bkt := tx !! bucketKeyClusters.

Definition createClustersBucket (tx : DB) : result (DB * Bkt) :=
  match tx !! bucketKeyClusters with
  | Some bkt => Ok (tx, bkt)
  | None => Ok (<[bucketKeyClusters := ∅]> tx, ∅)
  end.

(** The clusters collection, written back after its handle was mutated. *)
Definition tx_store (tx : DB) (bkt : Bkt) : DB := <[bucketKeyClusters := bkt]> tx.

(** ** Helpers of the package outside [cluster.go] *)

(** Modelled from the spec: [RecreateBucket] discards an existing child
    container and creates a fresh one under the same key (glossary). *)
Definition RecreateBucket (bkt : Bkt) (key : string) : result (Bkt * Bkt) :=
  do bkt1 <- match bolt.Bucket bkt key with
             | Some _ => bolt.DeleteBucket bkt key
             | None => Ok bkt
             end;
  bolt.CreateBucket bkt1 key.

(** [for _, f := range []field{...} { err = bkt.Put(f.key, f.value) ... }] *)
Fixpoint put_fields (bkt : Bkt) (fields : list (string * string)) : result Bkt :=
  match fields with
  | [] => Ok bkt
  | (key, value) :: fields' =>
      do bkt' <- bolt.Put bkt key value; put_fields bkt' fields'
  end.

(** The container after the writes of [put_fields], when none of them
    fails. *)
Fixpoint puts (b : Bkt) (fields : list (string * string)) : Bkt :=
  match fields with
  | [] => b
  | (key, value) :: fields' => puts (<[key := Val value]> b) fields'
  end.

(** Modelled from the spec: [writeLabels] recreates the labels container
    and writes one flat field per label, keyed by the label, with an empty
    marker as value (§4.2, step 3). *)
Definition writeLabels (bkt : Bkt) (labels : list string) : result Bkt :=
  do (bkt1, lbkt) <- RecreateBucket bkt bucketKeyLabels;
  do lbkt' <- put_fields lbkt ((λ l, (l, EmptyString)) <$> labels);
  Ok (bkt_store bkt1 bucketKeyLabels lbkt').

(** The labels container [writeLabels] leaves. *)
Definition labels_bkt (labels : list string) : Bkt :=
  puts ∅ ((λ l, (l, EmptyString)) <$> labels).

(** Modelled from the spec: [readLabels] is the inverse of [writeLabels]:
    the keys of the labels container, none if the container is missing. *)
Definition readLabels (bkt : Bkt) : result (list string) :=
  match bolt.Bucket bkt bucketKeyLabels with
  | None => Ok []
  | Some lbkt => bolt.ForEach lbkt (λ k _ labels, Ok (labels ++ [k])%list) []
  end.

Section Model.
Context {PeerDefinition : Type} `{!Collaborators PeerDefinition}.

(** Modelled from the spec: [WriteTimestamps] writes the two timestamps
    as a pair of flat fields under reserved keys (§4.2, step 1). *)
Definition WriteTimestamps (bkt : Bkt) (created updated : Time) : result Bkt :=
  do c <- marshalTime created;
  do u <- marshalTime updated;
  put_fields bkt [(bucketKeyCreatedAt, c); (bucketKeyUpdatedAt, u)].

(** Modelled from the spec: [ReadTimestamps] is the inverse of
    [WriteTimestamps]; a field that is not stored leaves the timestamp
    it was given. *)
Definition ReadTimestamps (bkt : Bkt) (created updated : Time)
    : result (Time * Time) :=
  do c <- match bolt.Get bkt bucketKeyCreatedAt with
          | Some v => unmarshalTime v
          | None => Ok created
          end;
  do u <- match bolt.Get bkt bucketKeyUpdatedAt with
          | Some v => unmarshalTime v
          | None => Ok updated
          end;
  Ok (c, u).

(** Modelled from the spec: [writePeerDefinition] writes the peer into
    its own container under the reserved "definition" key of the group
    (§4.2, step 2); [readPeerDefinition] reads it from there.  The only
    call of [readPeerDefinition] has checked that the container exists. *)
Definition writePeerDefinition (bkt : Bkt) (pdef : PeerDefinition) : result Bkt :=
  do (bkt1, _) <- RecreateBucket bkt bucketKeyDefinition;
  do dbkt <- encodePeer pdef;
  Ok (bkt_store bkt1 bucketKeyDefinition dbkt).

Definition readPeerDefinition (bkt : Bkt) : result PeerDefinition :=
  match bolt.Bucket bkt bucketKeyDefinition with
  | Some dbkt => decodePeer dbkt
  | None => Err ErrBucketNotFound
  end.

(** ** The data model *)

Record ClusterGroup : Type := {
  Size : Z;
  InstanceType : string;
  Region : string;
  Peer : option PeerDefinition;
  GroupLabels : list string;
}.

Record ClusterDefinition : Type := { Groups : list ClusterGroup }.

Record Cluster : Type := {
  ID : string;
  Status : string;
  Definition_ : ClusterDefinition;
  Labels : list string;
  CreatedAt : Time;
  UpdatedAt : Time;
}.

(** The zero values [var group ClusterGroup] and [var cluster Cluster]. *)
Definition zeroGroup : ClusterGroup :=
  {| Size := 0; InstanceType := EmptyString; Region := EmptyString; Peer := None; GroupLabels := [] |}.

Definition zeroCluster : Cluster :=
  {| ID := EmptyString; Status := EmptyString; Definition_ := {| Groups := [] |}; Labels := [];
     CreatedAt := 0; UpdatedAt := 0 |}.

Definition Validate (c : Cluster) : option error := ValidateClusterID (ID c).

Definition ClusterDefinition_Size (d : ClusterDefinition) : Z :=
  foldl (λ sum g, strconv.wrap64 (sum + Size g)) 0 (Groups d).

(** [GenerateLabels]: the two maps used as sets, then one pass over each.
    Go leaves the iteration order of a map open: [GenerateLabels] takes
    the order of [elements], and [GenerateLabels_returns] holds of every
    list some iteration order produces. *)
Definition regionSet (d : ClusterDefinition) : gset string :=
  foldl (λ set g, {[Region g]} ∪ set) ∅ (Groups d).

Definition instanceTypeSet (d : ClusterDefinition) : gset string :=
  foldl (λ set g, {[InstanceType g]} ∪ set) ∅ (Groups d).

Definition GenerateLabels (d : ClusterDefinition) : list string :=
  (elements (regionSet d) ++ elements (instanceTypeSet d))%list.

Definition GenerateLabels_returns (d : ClusterDefinition) (labels : list string) : Prop :=
  ∃ regions instanceTypes,
    regions ≡ₚ elements (regionSet d)
    ∧ instanceTypes ≡ₚ elements (instanceTypeSet d)
    ∧ labels = (regions ++ instanceTypes)%list.

(** ** The entity codec *)

(** The callback of [gbkt.ForEach] in [readClusterDefinition]: it
    assigns the captured [group]; the value of a nested bucket is nil
    and converts to the empty string. *)
Definition group_field (k : string) (v : option string) (group : ClusterGroup)
    : result ClusterGroup :=
  if bool_decide (k = bucketKeySize) then
    do size <- strconv.Atoi (string_of v);
    Ok {| Size := size; InstanceType := InstanceType group; Region := Region group;
          Peer := Peer group; GroupLabels := GroupLabels group |}
  else if bool_decide (k = bucketKeyInstanceType) then
    Ok {| Size := Size group; InstanceType := string_of v; Region := Region group;
          Peer := Peer group; GroupLabels := GroupLabels group |}
  else if bool_decide (k = bucketKeyRegion) then
    Ok {| Size := Size group; InstanceType := InstanceType group; Region := string_of v;
          Peer := Peer group; GroupLabels := GroupLabels group |}
  else Ok group.

(** The body of the loop of [readClusterDefinition]: one group decoded
    from its container. *)
Definition readClusterGroup (gbkt : Bkt) : result ClusterGroup :=
  do labels <- readLabels gbkt;
  let group := {| Size := 0; InstanceType := EmptyString; Region := EmptyString; Peer := None;
                  GroupLabels := labels |} in
  do group1 <- match bolt.Bucket gbkt bucketKeyDefinition with
               | Some _ =>
                   do pdef <- readPeerDefinition gbkt;
                   Ok {| Size := Size group; InstanceType := InstanceType group;
                         Region := Region group; Peer := Some pdef;
                         GroupLabels := GroupLabels group |}
               | None => Ok group
               end;
  bolt.ForEach gbkt group_field group1.

(** [for gbkt != nil { ...; i++; gbkt = dbkt.Bucket(strconv.Itoa(i)) }].
    The loop ends at the first index that is not a container; [None]
    is the loop cut short by [fuel], which [readClusterDefinition] sets
    so that this never happens ([readGroups_fuel]). *)
Fixpoint readGroups (fuel : nat) (dbkt : Bkt) (i : nat) (groups : list ClusterGroup)
    : option (result (list ClusterGroup)) :=
  match bolt.Bucket dbkt (strconv.Itoa (Z.of_nat i)) with
  | None => Some (Ok groups)
  | Some gbkt =>
      match fuel with
      | O => None
      | S fuel' =>
          match readClusterGroup gbkt with
          | Err e => Some (Err e)
          | Ok group => readGroups fuel' dbkt (S i) (groups ++ [group])%list
          end
      end
  end.

Definition readClusterDefinition (bkt : Bkt) : result ClusterDefinition :=
  match bolt.Bucket bkt bucketKeyDefinition with
  | None => Ok {| Groups := [] |}
  | Some dbkt =>
      match readGroups (size dbkt) dbkt 0 [] with
      | Some (Ok groups) => Ok {| Groups := groups |}
      | Some (Err e) => Err e
      | None => Ok {| Groups := [] |}
      end
  end.

(** The callback of [bkt.ForEach] in [readCluster]. *)
Definition cluster_field (k : string) (v : option string) (cluster : Cluster)
    : result Cluster :=
  match v with
  | None => Ok cluster
  | Some v =>
      if bool_decide (k = bucketKeyID) then
        Ok {| ID := v; Status := Status cluster; Definition_ := Definition_ cluster;
              Labels := Labels cluster; CreatedAt := CreatedAt cluster;
              UpdatedAt := UpdatedAt cluster |}
      else if bool_decide (k = bucketKeyStatus) then
        Ok {| ID := ID cluster; Status := v; Definition_ := Definition_ cluster;
              Labels := Labels cluster; CreatedAt := CreatedAt cluster;
              UpdatedAt := UpdatedAt cluster |}
      else Ok cluster
  end.

(** [readCluster bkt cluster]: the cluster behind the pointer after a
    successful call. *)
Definition readCluster (bkt : Bkt) (cluster : Cluster) : result Cluster :=
  do (created, updated) <- ReadTimestamps bkt (CreatedAt cluster) (UpdatedAt cluster);
  do cdef <- readClusterDefinition bkt;
  do labels <- readLabels bkt;
  bolt.ForEach bkt cluster_field
    {| ID := ID cluster; Status := Status cluster; Definition_ := cdef;
       Labels := labels; CreatedAt := created; UpdatedAt := updated |}.

(** The body of the loop of [writeClusterDefinition] for the group at
    position [i], and the loop. *)
Definition writeClusterGroup (dbkt : Bkt) (i : nat) (group : ClusterGroup)
    : result Bkt :=
  let key := strconv.Itoa (Z.of_nat i) in
  do (dbkt1, gbkt) <- bolt.CreateBucket dbkt key;
  do gbkt1 <- writeLabels gbkt (GroupLabels group);
  do gbkt2 <- match Peer group with
              | Some pdef => writePeerDefinition gbkt1 pdef
              | None => Ok gbkt1
              end;
  do gbkt3 <- put_fields gbkt2
                [(bucketKeySize, strconv.Itoa (Size group));
                 (bucketKeyInstanceType, InstanceType group);
                 (bucketKeyRegion, Region group)];
  Ok (bkt_store dbkt1 key gbkt3).

Fixpoint writeGroups (dbkt : Bkt) (i : nat) (groups : list ClusterGroup)
    : result Bkt :=
  match groups with
  | [] => Ok dbkt
  | group :: groups' =>
      do dbkt' <- writeClusterGroup dbkt i group;
      writeGroups dbkt' (S i) groups'
  end.

Definition writeClusterDefinition (bkt : Bkt) (cdef : ClusterDefinition)
    : result Bkt :=
  do (bkt1, dbkt) <- RecreateBucket bkt bucketKeyDefinition;
  do dbkt' <- writeGroups dbkt 0 (Groups cdef);
  Ok (bkt_store bkt1 bucketKeyDefinition dbkt').

Definition writeCluster (bkt : Bkt) (cluster : Cluster) : result Bkt :=
  do bkt1 <- WriteTimestamps bkt (CreatedAt cluster) (UpdatedAt cluster);
  do bkt2 <- writeClusterDefinition bkt1 (Definition_ cluster);
  do bkt3 <- writeLabels bkt2 (Labels cluster);
  put_fields bkt3 [(bucketKeyID, ID cluster); (bucketKeyStatus, Status cluster)].

(** ** Lifecycle operations *)

Definition GetCluster (s : DB) (id : string) : result Cluster :=
  db_View (λ tx,
    match getClustersBucket tx with
    | None => Err (Wrapf ErrNotFound "cluster %q" id)
    | Some bkt =>
        match bolt.Bucket bkt id with
        | None => Err (Wrapf ErrNotFound "cluster %q" id)
        | Some cbkt =>
            let cluster :=
              {| ID := id; Status := EmptyString; Definition_ := {| Groups := [] |};
                 Labels := []; CreatedAt := 0; UpdatedAt := 0 |} in
            match readCluster cbkt cluster with
            | Err err => Err (Wrapf err "cluster %q" id)
            | Ok cluster' => Ok cluster'
            end
        end
    end) s.

(** The callback of [bkt.ForEach] in [ListClusters]; [readCluster] on
    the nil handle of a key that holds a flat value panics. *)
Definition list_entry (bkt : Bkt) (k : string) (v : option string)
    (clusters : list Cluster) : result (list Cluster) :=
  let cluster :=
    {| ID := k; Status := EmptyString; Definition_ := {| Groups := [] |};
       Labels := []; CreatedAt := 0; UpdatedAt := 0 |} in
  match bolt.Bucket bkt k with
  | None => Err Panic
  | Some cbkt =>
      do cluster' <- readCluster cbkt cluster;
      Ok (clusters ++ [cluster'])%list
  end.

Definition ListClusters (s : DB) : result (list Cluster) :=
  db_View (λ tx,
    match getClustersBucket tx with
    | None => Ok []
    | Some bkt => bolt.ForEach bkt (list_entry bkt) []
    end) s.

Definition CreateCluster (s : DB) (now : Time) (cluster : Cluster)
    : DB * result Cluster :=
  match Validate cluster with
  | Some err => (s, Err err)
  | None =>
      db_Update (λ tx,
        do (tx1, bkt) <- createClustersBucket tx;
        match bolt.CreateBucket bkt (ID cluster) with
        | Err err =>
            if bool_decide (err ≠ ErrBucketExists) then Err err
            else Err (Wrapf ErrAlreadyExists "cluster %q" (ID cluster))
        | Ok (bkt1, cbkt) =>
            let cluster' :=
              {| ID := ID cluster; Status := Status cluster;
                 Definition_ := Definition_ cluster; Labels := Labels cluster;
                 CreatedAt := now; UpdatedAt := now |} in
            do cbkt' <- writeCluster cbkt cluster';
            Ok (tx_store tx1 (bkt_store bkt1 (ID cluster) cbkt'), cluster')
        end) s
  end.

Definition UpdateCluster (s : DB) (now : Time) (cluster : Cluster)
    : DB * result Cluster :=
  if bool_decide (ID cluster = EmptyString) then
    (s, Err (Wrapf ErrInvalidArgument "cluster id required for update" EmptyString))
  else
    db_Update (λ tx,
      do (tx1, bkt) <- createClustersBucket tx;
      match bolt.Bucket bkt (ID cluster) with
      | None => Err (Wrapf ErrNotFound "cluster %q" (ID cluster))
      | Some cbkt =>
          let cluster' :=
            {| ID := ID cluster; Status := Status cluster;
               Definition_ := Definition_ cluster; Labels := Labels cluster;
               CreatedAt := CreatedAt cluster; UpdatedAt := now |} in
          do cbkt' <- writeCluster cbkt cluster';
          Ok (tx_store tx1 (bkt_store bkt (ID cluster) cbkt'), cluster')
      end) s.

(** Modelled from the spec: [batchUpdateLabels] (§4.3, label batch
    update).  Its precondition is that all identifiers are present: a
    missing identifier is NotFound.  Then, for each identifier, it reads
    the current labels, adds the requested labels (a label already
    present is not added again), removes the requested labels, and hands
    the entity container, the identifier and the new labels to [f]; the
    first failure ends the batch. *)
Definition updateLabels (labels adds removes : list string) : list string :=
  filter (λ l, l ∉ removes) (remove_dups (labels ++ adds)%list).

Fixpoint requireAll (bkt : Bkt) (ids : list string) : result unit :=
  match ids with
  | [] => Ok tt
  | id :: ids' =>
      match bolt.Bucket bkt id with
      | None => Err (Wrapf ErrNotFound "%q" id)
      | Some _ => requireAll bkt ids'
      end
  end.

Fixpoint batchEach {S : Type} (bkt : Bkt) (ids adds removes : list string)
    (f : Bkt → string → list string → S → result (Bkt * S)) (s : S)
    : result (Bkt * S) :=
  match ids with
  | [] => Ok (bkt, s)
  | id :: ids' =>
      match bolt.Bucket bkt id with
      | None => Err (Wrapf ErrNotFound "%q" id)
      | Some ibkt =>
          do labels <- readLabels ibkt;
          do (ibkt', s') <- f ibkt id (updateLabels labels adds removes) s;
          batchEach (bkt_store bkt id ibkt') ids' adds removes f s'
      end
  end.

Definition batchUpdateLabels {S : Type} (bkt : Bkt) (ids adds removes : list string)
    (f : Bkt → string → list string → S → result (Bkt * S)) (s : S)
    : result (Bkt * S) :=
  do _ <- requireAll bkt ids;
  batchEach bkt ids adds removes f s.

(** The callback of [LabelClusters].  It captures [clusters]; [now k] is
    the clock read by the [k]-th call, [k] the number of calls so far. *)
Definition label_entry (now : nat → Time) (ibkt : Bkt) (id : string)
    (labels : list string) (clusters : list Cluster)
    : result (Bkt * list Cluster) :=
  let cluster :=
    {| ID := id; Status := EmptyString; Definition_ := {| Groups := [] |};
       Labels := []; CreatedAt := 0; UpdatedAt := 0 |} in
  do cluster1 <- readCluster ibkt cluster;
  let cluster2 :=
    {| ID := ID cluster1; Status := Status cluster1;
       Definition_ := Definition_ cluster1; Labels := labels;
       CreatedAt := CreatedAt cluster1; UpdatedAt := now (length clusters) |} in
  do ibkt' <- writeCluster ibkt cluster2;
  Ok (ibkt', (clusters ++ [cluster2])%list).

Definition LabelClusters (s : DB) (now : nat → Time) (ids adds removes : list string)
    : DB * result (list Cluster) :=
  db_Update (λ tx,
    do (tx1, bkt) <- createClustersBucket tx;
    do (bkt', clusters) <- batchUpdateLabels bkt ids adds removes (label_entry now) [];
    Ok (tx_store tx1 bkt', clusters)) s.

Definition DeleteCluster (s : DB) (id : string) : DB * result unit :=
  db_Update (λ tx,
    match getClustersBucket tx with
    | None => Ok (tx, tt)
    | Some bkt =>
        match bolt.DeleteBucket bkt id with
        | Err err =>
            if bool_decide (err = ErrBucketNotFound)
            then Err (Wrapf ErrNotFound "cluster %q" id)
            else Err err
        | Ok bkt' => Ok (tx_store tx bkt', tt)
        end
    end) s.

(** ** Valid values, and equality up to the order of labels *)

(** A label set the store can hold: no label twice, and no empty label
    (a label is the key of its flat field, and the store refuses the
    empty key). *)
Definition valid_labels (labels : list string) : Prop :=
  NoDup labels ∧ EmptyString ∉ labels.

Definition valid_group (g : ClusterGroup) : Prop :=
  strconv.in_int64 (Size g)
  ∧ valid_labels (GroupLabels g)
  ∧ ∀ pdef, Peer g = Some pdef → is_ok (encodePeer pdef).

Definition valid_cluster (c : Cluster) : Prop :=
  valid_labels (Labels c)
  ∧ Forall valid_group (Groups (Definition_ c))
  ∧ is_ok (marshalTime (CreatedAt c))
  ∧ is_ok (marshalTime (UpdatedAt c)).

Definition group_equiv (g1 g2 : ClusterGroup) : Prop :=
  Size g1 = Size g2 ∧ InstanceType g1 = InstanceType g2 ∧ Region g1 = Region g2
  ∧ Peer g1 = Peer g2 ∧ GroupLabels g1 ≡ₚ GroupLabels g2.

(** Same fields, the groups in the same order, the label sets up to
    their order. *)
Definition cluster_equiv (c1 c2 : Cluster) : Prop :=
  ID c1 = ID c2 ∧ Status c1 = Status c2
  ∧ Forall2 group_equiv (Groups (Definition_ c1)) (Groups (Definition_ c2))
  ∧ Labels c1 ≡ₚ Labels c2
  ∧ CreatedAt c1 = CreatedAt c2 ∧ UpdatedAt c1 = UpdatedAt c2.

(** ** What the encoder leaves *)

(** What [writeClusterGroup] leaves in the container of a group. *)
Definition group_stored (g : ClusterGroup) (gb : Bkt) : Prop :=
  gb !! bucketKeyLabels = Some (Sub (labels_bkt (GroupLabels g)))
  ∧ gb !! bucketKeySize = Some (Val (strconv.Itoa (Size g)))
  ∧ gb !! bucketKeyInstanceType = Some (Val (InstanceType g))
  ∧ gb !! bucketKeyRegion = Some (Val (Region g))
  ∧ match Peer g with
    | Some pdef => ∃ pb, encodePeer pdef = Ok pb ∧ gb !! bucketKeyDefinition = Some (Sub pb)
    | None => gb !! bucketKeyDefinition = None
    end.

(** What a successful [writeCluster] makes of the container [b]. *)
Definition cluster_written (c : Cluster) (b b' : Bkt) : Prop :=
  ∃ mc mu dbkt,
    marshalTime (CreatedAt c) = Ok mc
    ∧ marshalTime (UpdatedAt c) = Ok mu
    ∧ writeGroups ∅ 0 (Groups (Definition_ c)) = Ok dbkt
    ∧ b' = <[bucketKeyStatus := Val (Status c)]>
             (<[bucketKeyID := Val (ID c)]>
                (<[bucketKeyLabels := Sub (labels_bkt (Labels c))]>
                   (<[bucketKeyDefinition := Sub dbkt]>
                      (<[bucketKeyUpdatedAt := Val mu]>
                         (<[bucketKeyCreatedAt := Val mc]> b))))).

(** A container in which the keys of a cluster's containers hold no
    flat value and the keys of its flat fields hold no container: an
    empty one, or one [writeCluster] wrote before. *)
Definition entity_shape (b : Bkt) : Prop :=
  bolt.Bucket b bucketKeyCreatedAt = None
  ∧ bolt.Bucket b bucketKeyUpdatedAt = None
  ∧ bolt.Get b bucketKeyDefinition = None
  ∧ bolt.Get b bucketKeyLabels = None
  ∧ bolt.Bucket b bucketKeyID = None
  ∧ bolt.Bucket b bucketKeyStatus = None.

End Model.

Arguments ClusterGroup : clear implicits.
Arguments ClusterDefinition : clear implicits.
Arguments Cluster : clear implicits.

(** ** Sample collaborators and values *)

Module Sample.

(** A peer of one field, timestamps as decimal text, and identifiers
    that only have to be non-empty. *)
#[local] Instance collaborators : Collaborators string := {|
  ValidateClusterID := λ id,
    if bool_decide (id = EmptyString) then Some (Wrapf ErrInvalidArgument "cluster id %q" id)
    else None;
  marshalTime := λ t,
    if (- 2 ^ 63 <=? t) && (t <? 2 ^ 63) then Ok (strconv.Itoa t)
    else Err (ErrForeign "time out of range");
  unmarshalTime := strconv.Atoi;
  encodePeer := λ p, Ok {[ "gitReference" := Val p ]};
  decodePeer := λ b,
    match bolt.Get b "gitReference" with
    | Some v => Ok v
    | None => Err (ErrForeign "peer definition")
    end;
|}.

Definition group0 : ClusterGroup string :=
  {| Size := 3; InstanceType := "m5.large"; Region := "us-east-1";
     Peer := Some "v0.1.0"; GroupLabels := ["canary"; "arm"] |}.

Definition group1 : ClusterGroup string :=
  {| Size := 0; InstanceType := "t3.micro"; Region := "eu-west-1";
     Peer := None; GroupLabels := [] |}.

Definition cluster1 : Cluster string :=
  {| ID := "c1"; Status := "creating";
     Definition_ := {| Groups := [group0; group1] |};
     Labels := ["prod"; "blue"]; CreatedAt := 5; UpdatedAt := 9 |}.

(** The store after [cluster1] was created at time 100. *)
Definition store1 : DB :=
  Eval vm_compute in (CreateCluster ∅ 100 cluster1).1.

(** What [CreateCluster] returns for [cluster1] at time 100. *)
Definition created1 : Cluster string :=
  {| ID := "c1"; Status := "creating";
     Definition_ := {| Groups := [group0; group1] |};
     Labels := ["prod"; "blue"]; CreatedAt := 100; UpdatedAt := 100 |}.

(** What [GetCluster] returns for "c1" from [store1]. *)
Definition stored1 : Cluster string :=
  {| ID := "c1"; Status := "creating";
     Definition_ := {| Groups := [
       {| Size := 3; InstanceType := "m5.large"; Region := "us-east-1";
          Peer := Some "v0.1.0"; GroupLabels := ["arm"; "canary"] |};
       group1] |};
     Labels := ["blue"; "prod"]; CreatedAt := 100; UpdatedAt := 100 |}.

(** An update of "c1" by a caller that passes its own created-timestamp,
    the store after the update at time 200, and what [GetCluster] returns
    from it. *)
Definition update1 : Cluster string :=
  {| ID := "c1"; Status := "created"; Definition_ := {| Groups := [group1] |};
     Labels := ["green"]; CreatedAt := 7; UpdatedAt := 0 |}.

Definition updated1 : Cluster string :=
  {| ID := "c1"; Status := "created"; Definition_ := {| Groups := [group1] |};
     Labels := ["green"]; CreatedAt := 7; UpdatedAt := 200 |}.

Definition store2 : DB :=
  Eval vm_compute in (UpdateCluster store1 200 update1).1.

(** A definition whose only group has the same text as region and as
    instance type. *)
Definition overlap : ClusterDefinition string :=
  {| Groups := [{| Size := 1; InstanceType := "x"; Region := "x";
                   Peer := None; GroupLabels := [] |}] |}.

(** A group container without labels and peer containers; a cluster
    container whose groups are stored at 0 and 2, with a gap at 1; and one
    whose only group has a size that is not a number. *)
Definition group_bkt : Bkt :=
  <[bucketKeySize := Val "3"]>
    (<[bucketKeyInstanceType := Val "m5.large"]>
       (<[bucketKeyRegion := Val "us-east-1"]> ∅)).

Definition decoded_group : ClusterGroup string :=
  {| Size := 3; InstanceType := "m5.large"; Region := "us-east-1";
     Peer := None; GroupLabels := [] |}.

Definition gapped_groups : Bkt :=
  <["0" := Sub group_bkt]> (<["2" := Sub group_bkt]> ∅).

Definition gapped : Bkt := <[bucketKeyDefinition := Sub gapped_groups]> ∅.

Definition bad_group : Bkt := <[bucketKeySize := Val "3x"]> ∅.

Definition bad_groups : Bkt := <["0" := Sub bad_group]> ∅.

Definition bad_size : Bkt := <[bucketKeyDefinition := Sub bad_groups]> ∅.

(** The clusters collection of [store1] and the container of "c1" in
    it; the store after "c1" was deleted from [store1]; the container of
    "c1" in [store2]; and what [writeClusterDefinition] makes of the
    empty container for the definition of [cluster1]. *)
Definition clusters1 : Bkt :=
  Eval vm_compute in default ∅ (getClustersBucket store1).

Definition entity1 : Bkt :=
  Eval vm_compute in default ∅ (bolt.Bucket clusters1 "c1").

Definition store3 : DB :=
  Eval vm_compute in (DeleteCluster store1 "c1").1.

Definition entity2 : Bkt :=
  Eval vm_compute in
    default ∅ (getClustersBucket store2 ≫= λ bkt, bolt.Bucket bkt "c1").

Definition definition1 : Bkt :=
  Eval vm_compute in
    match writeClusterDefinition ∅ (Definition_ cluster1) with
    | Ok b => b
    | Err _ => ∅
    end.

(** A second cluster. *)
Definition cluster2 : Cluster string :=
  {| ID := "c2"; Status := "creating"; Definition_ := {| Groups := [group1] |};
     Labels := ["green"]; CreatedAt := 0; UpdatedAt := 0 |}.

(** A definition whose sizes add up to the largest [int], by way of a
    partial sum that is out of range. *)
Definition sized (n : Z) : ClusterGroup string :=
  {| Size := n; InstanceType := "t3.micro"; Region := "eu-west-1";
     Peer := None; GroupLabels := [] |}.

Definition wide : ClusterDefinition string :=
  {| Groups := [sized (2 ^ 63 - 1); sized 1; sized (-1)] |}.

End Sample.

(** * Facts *)

(** ** Facts about strconv *)

Module strconv_facts.
Import strconv.

Lemma byte_of_range c : 0 <= byte_of c < 256.
Proof.
  unfold byte_of. pose proof (N_ascii_bounded c). lia.
Qed.

Lemma byte_of_digit_char d : 0 <= d <= 9 → byte_of (digit_char d) = 48 + d.
Proof.
  intros Hd. unfold byte_of, digit_char.
  rewrite N_ascii_embedding by lia. lia.
Qed.

Lemma wrap64_id z : in_int64 z → wrap64 z = z.
Proof.
  unfold in_int64, wrap64. intros Hz.
  rewrite Z.mod_small by lia. lia.
Qed.

Lemma is_digit_not_sign c :
  is_digit c = true → c ≠ "-"%char ∧ c ≠ "+"%char.
Proof. intros Hc. split; intros ->; discriminate Hc. Qed.

(** The byte test of the fast path and the one of [ParseUint] agree. *)
Lemma fast_digit_test c :
  (9 <? (byte_of c - 48) mod 256) = negb (is_digit c).
Proof.
  unfold is_digit. pose proof (byte_of_range c) as Hb.
  destruct (Z.ltb_spec 9 ((byte_of c - 48) mod 256)) as [Hlt|Hge];
    destruct (Z.leb_spec 48 (byte_of c)); destruct (Z.leb_spec (byte_of c) 57);
    simpl; try reflexivity; exfalso; revert Hlt || revert Hge;
    Z.div_mod_to_equations; lia.
Qed.

Lemma is_digit_digit_char d : 0 <= d <= 9 → is_digit (digit_char d) = true.
Proof.
  intros Hd. unfold is_digit. rewrite byte_of_digit_char by done.
  apply andb_true_iff. split; apply Z.leb_le; lia.
Qed.

Lemma mod10_range u : 0 <= u mod 10 <= 9.
Proof. pose proof (Z.mod_pos_bound u 10). lia. Qed.

Lemma utoa_head f u acc : head_digit (utoa f u acc) = true.
Proof.
  revert u acc. induction f as [|f IH]; intros u acc; simpl.
  - apply is_digit_digit_char, mod10_range.
  - destruct (u <? 10); [apply is_digit_digit_char, mod10_range | apply IH].
Qed.

Lemma enough_step f u : enough (S f) u → 10 <= u → enough f (u / 10).
Proof.
  unfold enough. intros [H0 H1] H10. split; [apply Z.div_pos; lia|].
  apply Z.div_lt_upper_bound; [lia|].
  rewrite Nat2Z.inj_succ, Z.pow_succ_r in H1 by lia. lia.
Qed.

Lemma enough_zero u : enough 0 u → u < 10.
Proof. unfold enough. simpl. lia. Qed.

Lemma enough_log2 u : 0 <= u → enough (Z.to_nat (Z.log2 u)) u.
Proof.
  intros Hu. unfold enough. split; [done|].
  rewrite Nat2Z.inj_succ, Z2Nat.id by apply Z.log2_nonneg.
  destruct (decide (u = 0)) as [->|]; [done|].
  apply Z.log2_spec. lia.
Qed.

Lemma digits_value_utoa f u rest :
  enough f u → digits_value (utoa f u rest) 0 = digits_value rest u.
Proof.
  revert u rest. induction f as [|f IH]; intros u rest Hf.
  - pose proof (enough_zero _ Hf). destruct Hf as [H0 _]. simpl.
    rewrite byte_of_digit_char by apply mod10_range.
    rewrite Z.mod_small by lia. f_equal. lia.
  - simpl. destruct (Z.ltb_spec u 10) as [Hlt|Hge].
    + destruct Hf as [H0 _]. simpl.
      rewrite byte_of_digit_char by apply mod10_range.
      rewrite Z.mod_small by lia. f_equal. lia.
    + rewrite IH by (by apply enough_step). simpl.
      rewrite byte_of_digit_char by apply mod10_range.
      f_equal. pose proof (Z.div_mod u 10). lia.
Qed.

Lemma atoi_loop_utoa f u rest :
  enough f u → u < 2 ^ 63 →
  atoi_loop (utoa f u rest) 0 = atoi_loop rest u.
Proof.
  revert u rest. induction f as [|f IH]; intros u rest Hf Hu.
  - pose proof (enough_zero _ Hf). destruct Hf as [H0 _]. simpl.
    rewrite fast_digit_test, is_digit_digit_char by apply mod10_range. simpl.
    rewrite byte_of_digit_char by apply mod10_range.
    rewrite (Z.mod_small u 10) by lia.
    replace ((48 + u - 48) mod 256) with u by (rewrite Z.mod_small; lia).
    by rewrite wrap64_id by (unfold in_int64; lia).
  - simpl. destruct (Z.ltb_spec u 10) as [Hlt|Hge].
    + destruct Hf as [H0 _]. simpl.
      rewrite fast_digit_test, is_digit_digit_char by apply mod10_range. simpl.
      rewrite byte_of_digit_char by apply mod10_range.
      rewrite (Z.mod_small u 10) by lia.
      replace ((48 + u - 48) mod 256) with u by (rewrite Z.mod_small; lia).
      by rewrite wrap64_id by (unfold in_int64; lia).
    + assert (0 <= u / 10 < u) as Hdiv.
      { split; [apply Z.div_pos; lia | apply Z.div_lt; lia]. }
      rewrite IH by (by apply enough_step || lia). simpl.
      rewrite fast_digit_test, is_digit_digit_char by apply mod10_range. simpl.
      rewrite byte_of_digit_char by apply mod10_range.
      pose proof (mod10_range u). pose proof (Z.div_mod u 10).
      replace (48 + u mod 10 - 48) with (u mod 10) by lia.
      rewrite (Z.mod_small (u mod 10) 256) by lia.
      replace (u / 10 * 10 + u mod 10) with u by lia.
      by rewrite wrap64_id by (unfold in_int64; lia).
Qed.

Lemma parseUint_loop_utoa f u rest :
  enough f u → u <= maxUint64 →
  parseUint_loop (utoa f u rest) 0 = parseUint_loop rest u.
Proof.
  assert (Hstep : ∀ a d rest', 0 <= d <= 9 → 0 <= a → a * 10 + d <= maxUint64 →
    parseUint_loop (String (digit_char d) rest') a = parseUint_loop rest' (a * 10 + d)).
  { intros a d rest' Hd Ha Hmax. cbn [parseUint_loop].
    rewrite byte_of_digit_char by done.
    replace ((48 <=? 48 + d) && (48 + d <=? 57)) with true
      by (symmetry; apply andb_true_iff; split; apply Z.leb_le; lia).
    change maxUint64 with 18446744073709551615 in *.
    change (18446744073709551615 / 10 + 1) with 1844674407370955162.
    replace (48 + d - 48) with d by lia.
    destruct (Z.leb_spec 1844674407370955162 a); [exfalso; lia|].
    destruct (Z.ltb_spec 18446744073709551615 (a * 10 + d)); [exfalso; lia|].
    reflexivity. }
  revert u rest. induction f as [|f IH]; intros u rest Hf Hu.
  - pose proof (enough_zero _ Hf). destruct Hf as [H0 _]. cbn [utoa].
    pose proof (mod10_range u).
    rewrite Hstep by (apply mod10_range || (change maxUint64 with 18446744073709551615 in *; lia)).
    rewrite Z.mod_small by lia. f_equal.
  - cbn [utoa]. destruct (Z.ltb_spec u 10) as [Hlt|Hge].
    + destruct Hf as [H0 _]. pose proof (mod10_range u).
      rewrite Hstep by (apply mod10_range || (change maxUint64 with 18446744073709551615 in *; lia)).
      rewrite Z.mod_small by lia. f_equal.
    + assert (0 <= u / 10 < u) as Hdiv.
      { split; [apply Z.div_pos; lia | apply Z.div_lt; lia]. }
      pose proof (mod10_range u). pose proof (Z.div_mod u 10).
      rewrite IH by (by apply enough_step || lia).
      rewrite Hstep by lia. f_equal. lia.
Qed.

Lemma formatUint_head u : ∃ c s', formatUint u = String c s' ∧ is_digit c = true.
Proof.
  unfold formatUint. pose proof (utoa_head (Z.to_nat (Z.log2 u)) u EmptyString) as Hh.
  destruct (utoa _ u EmptyString) as [|c s']; [discriminate|]. eauto.
Qed.

Lemma Itoa_nonempty i : Itoa i ≠ EmptyString.
Proof.
  unfold Itoa. destruct (i <? 0); [discriminate|].
  destruct (formatUint_head i) as (c & s' & -> & _). discriminate.
Qed.

Lemma Itoa_value_Itoa i : Itoa_value (Itoa i) = i.
Proof.
  unfold Itoa. destruct (Z.ltb_spec i 0) as [Hneg|Hpos].
  - cbn [Itoa_value]. rewrite bool_decide_eq_true_2 by done.
    unfold formatUint. rewrite digits_value_utoa by (apply enough_log2; lia).
    simpl. lia.
  - destruct (formatUint_head i) as (c & s' & Heq & Hc). rewrite Heq.
    cbn [Itoa_value]. apply is_digit_not_sign in Hc as [Hc _].
    rewrite bool_decide_eq_false_2 by done. rewrite <- Heq.
    unfold formatUint. by rewrite digits_value_utoa by (by apply enough_log2).
Qed.

Lemma Itoa_inj i j : Itoa i = Itoa j → i = j.
Proof.
  intros Heq. rewrite <- (Itoa_value_Itoa i), <- (Itoa_value_Itoa j).
  by rewrite Heq.
Qed.

Lemma atoi_loop_formatUint u :
  0 <= u < 2 ^ 63 → atoi_loop (formatUint u) 0 = Ok u.
Proof.
  intros Hu. unfold formatUint.
  by rewrite atoi_loop_utoa by (apply enough_log2 || idtac; lia).
Qed.

Lemma ParseUint_formatUint u :
  0 <= u <= 2 ^ 63 → ParseUint (formatUint u) = inr u.
Proof.
  intros Hu. destruct (formatUint_head u) as (c & s' & Heq & _).
  unfold ParseUint. rewrite Heq, <- Heq. unfold formatUint.
  rewrite parseUint_loop_utoa; [done|apply enough_log2; lia|].
  change maxUint64 with 18446744073709551615.
  change (2 ^ 63) with 9223372036854775808 in Hu. lia.
Qed.

Lemma ParseInt_minus s' un :
  ParseUint s' = inr un → un <= 2 ^ 63 →
  ParseInt (String "-" s') = inr (wrap64 (- wrap64 un)).
Proof.
  intros Hun Hle. unfold ParseInt. cbv beta iota zeta.
  change (bool_decide ("-"%char = "-"%char)) with true.
  change (bool_decide ("-"%char = "+"%char)) with false.
  cbn [orb andb negb]. rewrite Hun.
  by destruct (Z.ltb_spec (2 ^ 63) un); [lia|].
Qed.

Lemma ParseInt_unsigned c s' un :
  c ≠ "-"%char → c ≠ "+"%char →
  ParseUint (String c s') = inr un → un < 2 ^ 63 →
  ParseInt (String c s') = inr (wrap64 un).
Proof.
  intros Hm Hp Hun Hlt. unfold ParseInt. cbv beta iota zeta.
  rewrite (bool_decide_eq_false_2 (c = "-"%char)) by done.
  rewrite (bool_decide_eq_false_2 (c = "+"%char)) by done.
  cbn [orb andb negb]. rewrite Hun.
  by destruct (Z.leb_spec (2 ^ 63) un); [lia|].
Qed.

(** [Atoi] inverts [Itoa] on every [int]. *)
Lemma Atoi_Itoa n : in_int64 n → Atoi (Itoa n) = Ok n.
Proof.
  intros Hn. destruct (decide (n = - 2 ^ 63)) as [->|Hmin]; [by vm_compute|].
  unfold in_int64 in Hn. unfold Itoa.
  destruct (Z.ltb_spec n 0) as [Hneg|Hpos].
  - assert (0 <= - n < 2 ^ 63) as Hu by lia.
    destruct (formatUint_head (- n)) as (c' & s'' & Heq & _).
    unfold Atoi. cbv beta iota zeta. destruct (_ && _).
    + change (bool_decide ("-"%char = "-"%char)) with true.
      cbn [orb andb]. rewrite atoi_loop_formatUint by done.
      rewrite Heq at 1. cbn [String.length].
      destruct (Z.ltb_spec (Z.of_nat (S (String.length s''))) 1); [lia|].
      f_equal. rewrite wrap64_id by (unfold in_int64; lia). lia.
    + rewrite (ParseInt_minus _ (- n)); [|apply ParseUint_formatUint; lia|lia].
      f_equal. rewrite (wrap64_id (- n)) by (unfold in_int64; lia).
      rewrite wrap64_id by (unfold in_int64; lia). lia.
  - assert (0 <= n < 2 ^ 63) as Hu by lia.
    destruct (formatUint_head n) as (c & s' & Heq & Hc).
    apply is_digit_not_sign in Hc as [Hm Hp].
    unfold Atoi. cbv beta iota zeta. destruct (_ && _).
    + rewrite Heq.
      rewrite (bool_decide_eq_false_2 (c = "-"%char)) by done.
      rewrite (bool_decide_eq_false_2 (c = "+"%char)) by done.
      cbn [orb andb]. rewrite <- Heq. by rewrite atoi_loop_formatUint by done.
    + rewrite Heq. rewrite (ParseInt_unsigned c s' n); try done.
      * f_equal. by rewrite wrap64_id by (unfold in_int64; lia).
      * rewrite <- Heq. apply ParseUint_formatUint. lia.
      * lia.
Qed.

Lemma atoi_loop_digits s a n : atoi_loop s a = Ok n → all_digits s = true.
Proof.
  revert a. induction s as [|c s IH]; intros a; simpl; [done|].
  rewrite fast_digit_test. destruct (is_digit c); simpl; [apply IH|done].
Qed.

Lemma parseUint_loop_digits s a n :
  parseUint_loop s a = inr n → all_digits s = true.
Proof.
  revert a. induction s as [|c s IH]; intros a; simpl; [done|].
  fold (is_digit c). destruct (is_digit c); simpl; [|done].
  repeat case_match; try done. apply IH.
Qed.

(** What [Atoi] accepts is decimal text. *)
Lemma Atoi_decimal s n : Atoi s = Ok n → is_decimal_text s = true.
Proof.
  unfold Atoi. cbv beta iota zeta. destruct (_ && _).
  - destruct s as [|c s']; [done|]. unfold is_decimal_text.
    destruct (bool_decide (c = "-"%char) || bool_decide (c = "+"%char)) eqn:Hsign.
    + cbn [andb]. destruct s' as [|c' s'']; [done|].
      cbn [String.length]. destruct (Z.ltb_spec (Z.of_nat (S (String.length s''))) 1); [lia|].
      destruct (atoi_loop _ 0) eqn:Hloop; [|done]. intros _.
      rewrite bool_decide_eq_false_2 by done.
      apply atoi_loop_digits in Hloop. by rewrite Hloop.
    + cbn [andb]. destruct (atoi_loop _ 0) eqn:Hloop; [|done]. intros _.
      by apply atoi_loop_digits in Hloop.
  - destruct (ParseInt s) as [k|i] eqn:Hparse; [done|]. intros _.
    unfold ParseInt in Hparse. destruct s as [|c s']; [done|].
    cbv zeta in Hparse. unfold is_decimal_text.
    rewrite (orb_comm (bool_decide (c = "-"%char))).
    destruct (bool_decide (c = "+"%char) || bool_decide (c = "-"%char)) eqn:Hsign.
    + destruct (ParseUint s') as [[]|un] eqn:Hun; [done| |].
      * exfalso. revert Hparse. destruct (bool_decide (c = "-"%char)); by vm_compute.
      * unfold ParseUint in Hun. destruct s' as [|c' s'']; [done|].
        rewrite bool_decide_eq_false_2 by done.
        apply parseUint_loop_digits in Hun. by rewrite Hun.
    + destruct (ParseUint (String c s')) as [[]|un] eqn:Hun; [done| |].
      * exfalso. revert Hparse. destruct (bool_decide (c = "-"%char)); by vm_compute.
      * unfold ParseUint in Hun. by apply parseUint_loop_digits in Hun.
Qed.

(** [Atoi] fails on a text that is not decimal, with a [NumError]
    that carries the text. *)
Lemma Atoi_not_decimal s :
  is_decimal_text s = false → ∃ k, Atoi s = Err (NumError "Atoi" s k).
Proof.
  intros Hs. destruct (Atoi s) as [n|e] eqn:Hatoi.
  - apply Atoi_decimal in Hatoi. congruence.
  - revert Hatoi. unfold Atoi. cbv beta iota zeta.
    repeat case_match; intros; simplify_eq; eauto.
Qed.

End strconv_facts.

(** ** Facts about the store *)

Module bolt_facts.

Lemma sorted_perm (b : Bkt) : bolt.sorted b ≡ₚ map_to_list b.
Proof. apply merge_sort_Permutation. Qed.

Lemma cursor_keys (b : Bkt) : (bolt.cursor b).*1 ≡ₚ (map_to_list b).*1.
Proof.
  unfold bolt.cursor. rewrite <- list_fmap_compose.
  change (fst ∘ _) with (fst : string * Node → string).
  by rewrite sorted_perm.
Qed.

Lemma cursor_NoDup (b : Bkt) : NoDup (bolt.cursor b).*1.
Proof. rewrite cursor_keys. apply NoDup_fst_map_to_list. Qed.

Lemma cursor_elem (b : Bkt) k v :
  (k, v) ∈ bolt.cursor b ↔ ∃ n, b !! k = Some n ∧ bolt.flat n = v.
Proof.
  unfold bolt.cursor. rewrite list_elem_of_fmap. split.
  - intros ([k' n] & [= -> ->] & Hin).
    rewrite sorted_perm in Hin. apply elem_of_map_to_list in Hin. eauto.
  - intros (n & Hk & <-). exists (k, n). split; [done|].
    rewrite sorted_perm. by apply elem_of_map_to_list.
Qed.

Lemma cursor_key (b : Bkt) k :
  k ∈ (bolt.cursor b).*1 ↔ is_Some (b !! k).
Proof.
  rewrite cursor_keys. rewrite list_elem_of_fmap. split.
  - intros ([k' n] & -> & Hin). apply elem_of_map_to_list in Hin. eauto.
  - intros [n Hn]. exists (k, n). split; [done|]. by apply elem_of_map_to_list.
Qed.

(** *** Iteration *)

Section for_each.
Context {S : Type} (fn : string → option string → S → result S).

Lemma for_each_app es1 es2 s :
  bolt.for_each (es1 ++ es2) fn s
  = do s' <- bolt.for_each es1 fn s; bolt.for_each es2 fn s'.
Proof.
  revert s. induction es1 as [|[k v] es1 IH]; intros s; simpl; [done|].
  destruct (fn k v s); simpl; [apply IH|done].
Qed.

(** A callback that cannot fail on the entries makes the iteration
    succeed. *)
Lemma for_each_ok es s :
  (∀ k v s, (k, v) ∈ es → is_ok (fn k v s)) → is_ok (bolt.for_each es fn s).
Proof.
  revert s. induction es as [|[k v] es IH]; intros s Hok; simpl; [done|].
  pose proof (Hok k v s (list_elem_of_here _ _)) as Hkv.
  destruct (fn k v s); simpl; [|done].
  apply IH. intros k' v' s' Hin. apply Hok. by apply list_elem_of_further.
Qed.

(** The one entry on which the callback fails decides the result. *)
Lemma for_each_err es s k0 v0 e :
  NoDup es.*1 → (k0, v0) ∈ es →
  (∀ s, fn k0 v0 s = Err e) →
  (∀ k v s, k ≠ k0 → is_ok (fn k v s)) →
  bolt.for_each es fn s = Err e.
Proof.
  intros Hnd Hin Herr Hok. revert s Hnd Hin.
  induction es as [|[k v] es IH]; intros s Hnd Hin; [by apply elem_of_nil in Hin|].
  simpl in *. apply NoDup_cons in Hnd as [Hk Hnd].
  apply elem_of_cons in Hin as [[= <- <-]|Hin].
  - by rewrite Herr.
  - assert (k ≠ k0) as Hne.
    { intros ->. apply Hk. apply list_elem_of_fmap. by exists (k0, v0). }
    pose proof (Hok k v s Hne) as Hkv.
    destruct (fn k v s); simpl; [by apply IH|done].
Qed.

(** A variable that the callback assigns under the key [k0] only is
    left as it was when the key is absent, and holds what the entry
    under [k0] gives when it is there. *)
Lemma for_each_absent {A : Type} (get : S → A) (k0 : string) es s s' :
  (∀ k v s s', k ≠ k0 → fn k v s = Ok s' → get s' = get s) →
  k0 ∉ es.*1 → bolt.for_each es fn s = Ok s' → get s' = get s.
Proof.
  intros Hkeep. revert s.
  induction es as [|[k v] es IH]; intros s Hout Hrun; simpl in *.
  - by injection Hrun as <-.
  - apply not_elem_of_cons in Hout as [Hne Hout].
    destruct (fn k v s) as [s1|] eqn:Hstep; simpl in Hrun; [|done].
    rewrite (IH s1 Hout Hrun). by eapply Hkeep.
Qed.

Lemma for_each_field {A : Type} (get : S → A) (k0 : string)
    (v0 : option string) (a : A) es s s' :
  (∀ s s', fn k0 v0 s = Ok s' → get s' = a) →
  (∀ k v s s', k ≠ k0 → fn k v s = Ok s' → get s' = get s) →
  NoDup es.*1 → (k0, v0) ∈ es → bolt.for_each es fn s = Ok s' → get s' = a.
Proof.
  intros Hset Hkeep. revert s.
  induction es as [|[k v] es IH]; intros s Hnd Hin Hrun; simpl in *.
  - by apply elem_of_nil in Hin.
  - apply NoDup_cons in Hnd as [Hk Hnd].
    destruct (fn k v s) as [s1|] eqn:Hstep; simpl in Hrun; [|done].
    apply elem_of_cons in Hin as [[= <- <-]|Hin].
    + rewrite (for_each_absent get k0 es s1 s' Hkeep Hk Hrun). by eapply Hset.
    + by eapply IH.
Qed.

(** A variable that the callback does not assign on any of the
    entries is left as it was. *)
Lemma for_each_keep_in {A : Type} (get : S → A) es s s' :
  (∀ k v s s', (k, v) ∈ es → fn k v s = Ok s' → get s' = get s) →
  bolt.for_each es fn s = Ok s' → get s' = get s.
Proof.
  revert s. induction es as [|[k v] es IH]; intros s Hkeep Hrun; simpl in *.
  - by injection Hrun as <-.
  - destruct (fn k v s) as [s1|] eqn:Hstep; simpl in Hrun; [|done].
    rewrite (IH s1); [|by intros; eapply Hkeep; [apply list_elem_of_further|]|done].
    eapply Hkeep; [apply list_elem_of_here|done].
Qed.

(** A variable that the callback never assigns is left as it was. *)
Lemma for_each_keep {A : Type} (get : S → A) es s s' :
  (∀ k v s s', fn k v s = Ok s' → get s' = get s) →
  bolt.for_each es fn s = Ok s' → get s' = get s.
Proof.
  intros Hkeep. revert s.
  induction es as [|[k v] es IH]; intros s Hrun; simpl in *.
  - by injection Hrun as <-.
  - destruct (fn k v s) as [s1|] eqn:Hstep; simpl in Hrun; [|done].
    rewrite (IH s1 Hrun). by eapply Hkeep.
Qed.
End for_each.

(** Collecting the keys, as [readLabels] does. *)
Lemma for_each_keys es (acc : list string) :
  bolt.for_each es (λ k _ labels, Ok (labels ++ [k])%list) acc = Ok (acc ++ es.*1)%list.
Proof.
  revert acc. induction es as [|[k v] es IH]; intros acc; simpl.
  - by rewrite app_nil_r.
  - rewrite IH. by rewrite <- app_assoc.
Qed.

(** *** Writes *)

Lemma Put_ok (b : Bkt) key value :
  key ≠ EmptyString → bolt.Bucket b key = None →
  bolt.Put b key value = Ok (<[key := Val value]> b).
Proof.
  intros Hkey Hflat. unfold bolt.Put, bolt.Bucket in *.
  rewrite bool_decide_eq_false_2 by done.
  by destruct (b !! key) as [[]|].
Qed.

Lemma Put_inv (b b' : Bkt) key value :
  bolt.Put b key value = Ok b' → b' = <[key := Val value]> b.
Proof.
  unfold bolt.Put. repeat case_match; intros; by simplify_eq.
Qed.

Lemma CreateBucket_ok (b : Bkt) key :
  key ≠ EmptyString → b !! key = None →
  bolt.CreateBucket b key = Ok (<[key := Sub ∅]> b, ∅).
Proof.
  intros Hkey Hnone. unfold bolt.CreateBucket.
  rewrite bool_decide_eq_false_2 by done. by rewrite Hnone.
Qed.

Lemma CreateBucket_inv (b b1 c : Bkt) key :
  bolt.CreateBucket b key = Ok (b1, c) →
  b !! key = None ∧ b1 = <[key := Sub ∅]> b ∧ c = ∅.
Proof.
  unfold bolt.CreateBucket. repeat case_match; intros; by simplify_eq.
Qed.

Lemma put_fields_inv (b b' : Bkt) fields :
  put_fields b fields = Ok b' → b' = puts b fields.
Proof.
  revert b. induction fields as [|[k v] fields IH]; intros b; simpl.
  - by intros [= <-].
  - destruct (bolt.Put b k v) as [b1|] eqn:Hput; simpl; [|done].
    apply Put_inv in Hput as ->. apply IH.
Qed.

Lemma put_fields_ok (b : Bkt) fields :
  Forall (λ f, f.1 ≠ EmptyString ∧ bolt.Bucket b f.1 = None) fields →
  put_fields b fields = Ok (puts b fields).
Proof.
  revert b. induction fields as [|[k v] fields IH]; intros b Hall; simpl; [done|].
  apply Forall_cons in Hall as [[Hk Hb] Hall]. simpl in *.
  rewrite Put_ok by done. simpl. apply IH.
  eapply Forall_impl; [exact Hall|]. intros [k' v'] [Hk' Hb']. split; [done|].
  simpl in *. unfold bolt.Bucket in *. rewrite lookup_insert.
  case_decide; [done|exact Hb'].
Qed.

Lemma RecreateBucket_inv (b b1 c : Bkt) key :
  RecreateBucket b key = Ok (b1, c) → b1 = <[key := Sub ∅]> b ∧ c = ∅.
Proof.
  unfold RecreateBucket, bolt.Bucket, bolt.DeleteBucket.
  destruct (b !! key) as [[v|m]|] eqn:Hkey; simpl; intros Hc.
  - apply CreateBucket_inv in Hc as (Hnone & _). congruence.
  - apply CreateBucket_inv in Hc as (_ & -> & ->).
    by rewrite insert_delete_eq.
  - by apply CreateBucket_inv in Hc as (_ & -> & ->).
Qed.

Lemma RecreateBucket_ok (b : Bkt) key :
  key ≠ EmptyString → bolt.Get b key = None →
  RecreateBucket b key = Ok (<[key := Sub ∅]> b, ∅).
Proof.
  intros Hkey Hget. unfold RecreateBucket, bolt.Bucket, bolt.DeleteBucket, bolt.Get in *.
  destruct (b !! key) as [[v|m]|] eqn:Hb; simpl; [done| |].
  - rewrite CreateBucket_ok by (done || apply lookup_delete_eq).
    by rewrite insert_delete_eq.
  - by rewrite CreateBucket_ok.
Qed.

End bolt_facts.

(** ** Facts about the codec *)

Section codec_facts.
Context {PeerDefinition : Type} `{!Collaborators PeerDefinition}.
Import strconv_facts bolt_facts.

(** *** Label sets *)

Lemma puts_labels_lookup (b : Bkt) labels k :
  puts b ((λ l, (l, EmptyString)) <$> labels) !! k
  = if decide (k ∈ labels) then Some (Val EmptyString) else b !! k.
Proof.
  revert b. induction labels as [|l labels IH]; intros b; cbn [fmap list_fmap puts].
  - by destruct (decide (k ∈ [])) as [Hin%elem_of_nil|].
  - rewrite IH, lookup_insert.
    destruct (decide (k ∈ labels)) as [Hin|Hout].
    + rewrite decide_True; [done|]. by apply list_elem_of_further.
    + destruct (decide (l = k)) as [->|Hne].
      * rewrite decide_True; [done|]. apply list_elem_of_here.
      * rewrite decide_False; [done|]. apply not_elem_of_cons. by split.
Qed.

Lemma writeLabels_inv (b b' : Bkt) labels :
  writeLabels b labels = Ok b' →
  b' = <[bucketKeyLabels := Sub (labels_bkt labels)]> b.
Proof.
  unfold writeLabels.
  destruct (RecreateBucket b bucketKeyLabels) as [[b1 c]|] eqn:Hre; simpl; [|done].
  apply RecreateBucket_inv in Hre as [-> ->].
  destruct (put_fields ∅ _) as [lb|] eqn:Hput; simpl; [|done].
  apply put_fields_inv in Hput as ->. intros [= <-].
  unfold bkt_store. by rewrite insert_insert_eq.
Qed.

Lemma writeLabels_ok (b : Bkt) labels :
  bolt.Get b bucketKeyLabels = None → EmptyString ∉ labels →
  writeLabels b labels = Ok (<[bucketKeyLabels := Sub (labels_bkt labels)]> b).
Proof.
  intros Hget Hne. unfold writeLabels.
  rewrite RecreateBucket_ok by done. simpl.
  rewrite put_fields_ok.
  - simpl. unfold bkt_store. by rewrite insert_insert_eq.
  - apply Forall_fmap, Forall_forall. intros l Hl. simpl. split; [|done].
    intros ->. by apply Hne.
Qed.

Lemma readLabels_keys (b lb : Bkt) :
  bolt.Bucket b bucketKeyLabels = Some lb →
  readLabels b = Ok (bolt.cursor lb).*1.
Proof.
  intros Hlb. unfold readLabels, bolt.ForEach. rewrite Hlb.
  by rewrite for_each_keys.
Qed.

Lemma readLabels_written (b : Bkt) labels :
  b !! bucketKeyLabels = Some (Sub (labels_bkt labels)) → NoDup labels →
  ∃ labels', readLabels b = Ok labels' ∧ labels ≡ₚ labels'.
Proof.
  intros Hb Hnd. eexists. split.
  - apply readLabels_keys. unfold bolt.Bucket. by rewrite Hb.
  - apply NoDup_Permutation; [done|apply cursor_NoDup|].
    intros k. rewrite cursor_key. unfold labels_bkt.
    rewrite puts_labels_lookup. case_decide.
    + split; [by eauto|done].
    + rewrite lookup_empty. split; [done|]. by intros [? ?].
Qed.

Lemma readLabels_total (b : Bkt) : is_ok (readLabels b).
Proof.
  unfold readLabels, bolt.ForEach. destruct (bolt.Bucket _ _); [|done].
  by rewrite for_each_keys.
Qed.

(** *** Groups *)

Lemma writePeerDefinition_ok (b : Bkt) pdef pb :
  bolt.Get b bucketKeyDefinition = None → encodePeer pdef = Ok pb →
  writePeerDefinition b pdef = Ok (<[bucketKeyDefinition := Sub pb]> b).
Proof.
  intros Hget Henc. unfold writePeerDefinition.
  rewrite RecreateBucket_ok by done. simpl. rewrite Henc. simpl.
  unfold bkt_store. by rewrite insert_insert_eq.
Qed.

Lemma writeClusterGroup_ok (dbkt : Bkt) (i : nat) g :
  valid_group g → dbkt !! strconv.Itoa (Z.of_nat i) = None →
  ∃ gb, writeClusterGroup dbkt i g = Ok (<[strconv.Itoa (Z.of_nat i) := Sub gb]> dbkt)
        ∧ group_stored g gb.
Proof.
  intros (Hsize & [Hnd Hne] & Hpeer) Hfresh. unfold writeClusterGroup. cbv zeta.
  rewrite CreateBucket_ok by (apply Itoa_nonempty || done). cbn [bind].
  rewrite writeLabels_ok by done. cbn [bind].
  set (gb1 := <[bucketKeyLabels := Sub (labels_bkt (GroupLabels g))]> (∅ : Bkt)).
  assert (∃ gb2, match Peer g with
                 | Some pdef => writePeerDefinition gb1 pdef
                 | None => Ok gb1
                 end = Ok gb2
                 ∧ gb2 !! bucketKeyLabels = Some (Sub (labels_bkt (GroupLabels g)))
                 ∧ bolt.Bucket gb2 bucketKeySize = None
                 ∧ bolt.Bucket gb2 bucketKeyInstanceType = None
                 ∧ bolt.Bucket gb2 bucketKeyRegion = None
                 ∧ match Peer g with
                   | Some pdef => ∃ pb, encodePeer pdef = Ok pb
                                        ∧ gb2 !! bucketKeyDefinition = Some (Sub pb)
                   | None => gb2 !! bucketKeyDefinition = None
                   end) as (gb2 & -> & Hl & Hs & Hi & Hr & Hp).
  { destruct (Peer g) as [pdef|] eqn:Hpdef.
    - specialize (Hpeer pdef eq_refl).
      destruct (encodePeer pdef) as [pb|] eqn:Henc; [|done].
      exists (<[bucketKeyDefinition := Sub pb]> gb1). split.
      { by apply writePeerDefinition_ok. }
      repeat split; try done. exists pb. split; [done|]. apply lookup_insert_eq.
    - exists gb1. by repeat split. }
  cbn [bind]. rewrite put_fields_ok.
  - cbn [bind]. unfold bkt_store. rewrite insert_insert_eq. eexists. split; [done|].
    unfold bolt.Bucket in *. cbn [puts].
    repeat split.
    all: repeat (rewrite lookup_insert_ne by done); rewrite ?lookup_insert_eq; try done.
  - repeat (apply Forall_cons; split; [by split|]). apply Forall_nil_2.
Qed.

(** The callback of the flat fields of a group: which entry sets which
    field. *)
Lemma group_field_Size_set v n (s s' : ClusterGroup PeerDefinition) :
  strconv.Atoi (string_of v) = Ok n →
  group_field bucketKeySize v s = Ok s' → Size s' = n.
Proof.
  unfold group_field. intros ->. rewrite bool_decide_eq_true_2 by done.
  simpl. by intros [= <-].
Qed.

Lemma group_field_Size_keep k v (s s' : ClusterGroup PeerDefinition) :
  k ≠ bucketKeySize → group_field k v s = Ok s' → Size s' = Size s.
Proof.
  unfold group_field. intros Hk. rewrite bool_decide_eq_false_2 by done.
  repeat case_match; by intros [= <-].
Qed.

Lemma group_field_InstanceType_set v (s s' : ClusterGroup PeerDefinition) :
  group_field bucketKeyInstanceType v s = Ok s' → InstanceType s' = string_of v.
Proof.
  unfold group_field. rewrite bool_decide_eq_false_2 by done.
  rewrite bool_decide_eq_true_2 by done. by intros [= <-].
Qed.

Lemma group_field_InstanceType_keep k v (s s' : ClusterGroup PeerDefinition) :
  k ≠ bucketKeyInstanceType → group_field k v s = Ok s' →
  InstanceType s' = InstanceType s.
Proof.
  unfold group_field. intros Hk. destruct (bool_decide (k = bucketKeySize)).
  { destruct (strconv.Atoi _); simpl; [|done]. by intros [= <-]. }
  rewrite bool_decide_eq_false_2 by done.
  repeat case_match; by intros [= <-].
Qed.

Lemma group_field_Region_set v (s s' : ClusterGroup PeerDefinition) :
  group_field bucketKeyRegion v s = Ok s' → Region s' = string_of v.
Proof.
  unfold group_field. rewrite !bool_decide_eq_false_2 by done.
  rewrite bool_decide_eq_true_2 by done. by intros [= <-].
Qed.

Lemma group_field_Region_keep k v (s s' : ClusterGroup PeerDefinition) :
  k ≠ bucketKeyRegion → group_field k v s = Ok s' → Region s' = Region s.
Proof.
  unfold group_field. intros Hk. destruct (bool_decide (k = bucketKeySize)).
  { destruct (strconv.Atoi _); simpl; [|done]. by intros [= <-]. }
  destruct (bool_decide (k = bucketKeyInstanceType)); [by intros [= <-]|].
  rewrite bool_decide_eq_false_2 by done. by intros [= <-].
Qed.

Lemma group_field_keep k v (s s' : ClusterGroup PeerDefinition) :
  group_field k v s = Ok s' → Peer s' = Peer s ∧ GroupLabels s' = GroupLabels s.
Proof.
  unfold group_field. destruct (bool_decide (k = bucketKeySize)).
  { destruct (strconv.Atoi _); simpl; [|done]. by intros [= <-]. }
  repeat case_match; by intros [= <-].
Qed.

(** Only the size field can make the callback fail. *)
Lemma group_field_ok k v (s : ClusterGroup PeerDefinition) :
  k ≠ bucketKeySize ∨ is_ok (strconv.Atoi (string_of v)) → is_ok (group_field k v s).
Proof.
  unfold group_field. intros [Hk|Hv].
  - rewrite bool_decide_eq_false_2 by done. by repeat case_match.
  - destruct (strconv.Atoi _); [|done]. by repeat case_match.
Qed.

(** The flat fields of a group, read from a container that holds
    them. *)
Lemma group_fields_read (gb : Bkt) (g0 : ClusterGroup PeerDefinition) size it region :
  gb !! bucketKeySize = Some (Val (strconv.Itoa size)) → strconv.in_int64 size →
  gb !! bucketKeyInstanceType = Some (Val it) →
  gb !! bucketKeyRegion = Some (Val region) →
  bolt.ForEach gb group_field g0
  = Ok {| Size := size; InstanceType := it; Region := region;
          Peer := Peer g0; GroupLabels := GroupLabels g0 |}.
Proof.
  intros Hs Hsize Hi Hr. unfold bolt.ForEach.
  destruct (bolt.for_each (bolt.cursor gb) group_field g0) as [g'|e] eqn:Hrun.
  - pose proof (cursor_NoDup gb) as Hnd.
    assert (strconv.Atoi (string_of (Some (strconv.Itoa size))) = Ok size) as Hparse.
    { simpl. by apply Atoi_Itoa. }
    assert (Size g' = size) as HS'.
    { eapply (for_each_field _ Size bucketKeySize (Some (strconv.Itoa size)));
        [intros ??; by apply group_field_Size_set
        |apply group_field_Size_keep|exact Hnd| |exact Hrun].
      apply cursor_elem. by exists (Val (strconv.Itoa size)). }
    assert (InstanceType g' = it) as HI'.
    { eapply (for_each_field _ InstanceType bucketKeyInstanceType (Some it));
        [intros ??; apply group_field_InstanceType_set
        |apply group_field_InstanceType_keep|exact Hnd| |exact Hrun].
      apply cursor_elem. by exists (Val it). }
    assert (Region g' = region) as HR'.
    { eapply (for_each_field _ Region bucketKeyRegion (Some region));
        [intros ??; apply group_field_Region_set
        |apply group_field_Region_keep|exact Hnd| |exact Hrun].
      apply cursor_elem. by exists (Val region). }
    pose proof (for_each_keep _ Peer _ _ _
      (λ k v s s' Hk, proj1 (group_field_keep k v s s' Hk)) Hrun) as HP.
    pose proof (for_each_keep _ GroupLabels _ _ _
      (λ k v s s' Hk, proj2 (group_field_keep k v s s' Hk)) Hrun) as HL.
    rewrite <- HP, <- HL.
    destruct g'. simpl in *. by subst.
  - exfalso.
    assert (is_ok (bolt.for_each (bolt.cursor gb) group_field g0)) as Hok;
      [|by rewrite Hrun in Hok].
    apply for_each_ok. intros k v s Hin. apply group_field_ok.
    destruct (decide (k = bucketKeySize)) as [->|]; [right|by left].
    apply cursor_elem in Hin as (n & Hn & <-). rewrite Hs in Hn.
    injection Hn as <-. simpl. by rewrite Atoi_Itoa.
Qed.

Lemma readClusterGroup_stored `{!CodecLaws} g gb :
  group_stored g gb → NoDup (GroupLabels g) → strconv.in_int64 (Size g) →
  ∃ g', readClusterGroup gb = Ok g' ∧ group_equiv g g'.
Proof.
  intros (Hl & Hs & Hi & Hr & Hp) Hnd Hsize. unfold readClusterGroup.
  destruct (readLabels_written gb _ Hl Hnd) as (labels' & -> & Hperm). cbn [bind].
  unfold readPeerDefinition, bolt.Bucket.
  destruct (Peer g) as [pdef|] eqn:Hpeer.
  - destruct Hp as (pb & Henc & Hd). rewrite Hd.
    rewrite (peer_roundtrip _ _ Henc). cbn [bind].
    erewrite group_fields_read by done. eexists. split; [done|].
    by repeat split.
  - rewrite Hp. cbn [bind]. erewrite group_fields_read by done. eexists. split; [done|].
    by repeat split.
Qed.

(** *** The sequence of groups *)

Lemma Itoa_nat_inj (i j : nat) :
  strconv.Itoa (Z.of_nat i) = strconv.Itoa (Z.of_nat j) → i = j.
Proof. intros Heq. apply Nat2Z.inj. by apply Itoa_inj. Qed.

Lemma writeGroups_ok gs : ∀ (dbkt : Bkt) (i : nat),
  Forall valid_group gs →
  (∀ j, (i ≤ j)%nat → dbkt !! strconv.Itoa (Z.of_nat j) = None) →
  ∃ dbkt',
    writeGroups dbkt i gs = Ok dbkt'
    ∧ (∀ k g, gs !! k = Some g →
         ∃ gb, dbkt' !! strconv.Itoa (Z.of_nat (i + k)) = Some (Sub gb) ∧ group_stored g gb)
    ∧ (∀ key, (∀ k, (k < length gs)%nat → key ≠ strconv.Itoa (Z.of_nat (i + k))) →
         dbkt' !! key = dbkt !! key).
Proof.
  induction gs as [|g gs IH]; intros dbkt i Hvalid Hfresh.
  - exists dbkt. split; [done|]. split; [|done]. intros k g Hk. by destruct k.
  - apply Forall_cons in Hvalid as [Hg Hvalid]. cbn [writeGroups].
    destruct (writeClusterGroup_ok dbkt i g Hg (Hfresh i (le_n _))) as (gb & -> & Hgb).
    cbn [bind].
    destruct (IH (<[strconv.Itoa (Z.of_nat i) := Sub gb]> dbkt) (S i) Hvalid)
      as (dbkt' & -> & Hwritten & Hframe).
    { intros j Hj. rewrite lookup_insert_ne; [apply Hfresh; lia|].
      intros Heq%Itoa_nat_inj. lia. }
    exists dbkt'. split; [done|]. split.
    + intros [|k] g' Hk; simpl in Hk.
      * injection Hk as <-. exists gb. split; [|done].
        rewrite Hframe, Nat.add_0_r; [apply lookup_insert_eq|].
        intros k _ Heq%Itoa_nat_inj. lia.
      * destruct (Hwritten k g' Hk) as (gb' & Hl & Hs). exists gb'.
        split; [|done]. by replace (i + S k)%nat with (S i + k)%nat by lia.
    + intros key Hkey. rewrite Hframe.
      * rewrite lookup_insert_ne; [done|]. intros <-.
        apply (Hkey 0%nat); [simpl; lia|]. by rewrite Nat.add_0_r.
      * intros k Hk. replace (S i + k)%nat with (i + S k)%nat by lia.
        apply Hkey. simpl. lia.
Qed.

(** The probing loop reads a dense run of group containers up to the
    first index that is not a container. *)
Lemma readGroups_dense (R : ClusterGroup PeerDefinition → ClusterGroup PeerDefinition → Prop) gs :
  ∀ (fuel : nat) (dbkt : Bkt) (i : nat) acc,
  (∀ k g, gs !! k = Some g →
     ∃ gb g', bolt.Bucket dbkt (strconv.Itoa (Z.of_nat (i + k))) = Some gb
              ∧ readClusterGroup gb = Ok g' ∧ R g g') →
  bolt.Bucket dbkt (strconv.Itoa (Z.of_nat (i + length gs))) = None →
  (length gs ≤ fuel)%nat →
  ∃ gs', readGroups fuel dbkt i acc = Some (Ok (acc ++ gs')%list) ∧ Forall2 R gs gs'.
Proof.
  induction gs as [|g gs IH]; intros fuel dbkt i acc Hrun Hend Hfuel.
  - exists []. rewrite app_nil_r. split; [|constructor].
    simpl in Hend. rewrite Nat.add_0_r in Hend.
    destruct fuel; simpl; by rewrite Hend.
  - destruct (Hrun 0%nat g eq_refl) as (gb & g' & Hgb & Hread & Hg).
    rewrite Nat.add_0_r in Hgb.
    destruct fuel as [|fuel]; [simpl in Hfuel; lia|].
    cbn [readGroups]. rewrite Hgb, Hread.
    destruct (IH fuel dbkt (S i) (acc ++ [g'])%list) as (gs' & -> & Hall).
    + intros k g0 Hk. replace (S i + k)%nat with (i + S k)%nat by lia.
      by apply Hrun.
    + by replace (S i + length gs)%nat with (i + length (g :: gs))%nat by (simpl; lia).
    + simpl in Hfuel. lia.
    + exists (g' :: gs'). rewrite <- app_assoc. split; [done|by constructor].
Qed.

(** As many containers as there are indices below [n]. *)
Lemma dense_le_size (dbkt : Bkt) (n : nat) :
  (∀ j, (j < n)%nat → is_Some (dbkt !! strconv.Itoa (Z.of_nat j))) →
  (n ≤ size dbkt)%nat.
Proof.
  intros Hdense.
  set (keys := (λ j : nat, strconv.Itoa (Z.of_nat j)) <$> seq 0 n).
  assert (NoDup keys) as Hnd.
  { apply NoDup_fmap_2; [|apply NoDup_seq]. intros i j. apply Itoa_nat_inj. }
  assert (list_to_set keys ⊆ dom dbkt) as Hsub.
  { intros key Hkey. apply elem_of_list_to_set, list_elem_of_fmap in Hkey
      as (j & -> & Hj). apply elem_of_seq in Hj.
    apply elem_of_dom. apply Hdense. lia. }
  apply subseteq_size in Hsub.
  rewrite size_list_to_set, size_dom in Hsub by done.
  unfold keys in Hsub. by rewrite length_fmap, length_seq in Hsub.
Qed.

(** The fuel [readClusterDefinition] gives the loop is never used up. *)
Lemma readGroups_fuel (dbkt : Bkt) : ∀ (fuel i : nat) acc,
  (∀ j, (j < i)%nat → is_Some (dbkt !! strconv.Itoa (Z.of_nat j))) →
  (size dbkt ≤ fuel + i)%nat →
  readGroups fuel dbkt i acc ≠ None.
Proof.
  induction fuel as [|fuel IH]; intros i acc Hdense Hsize; cbn [readGroups];
    destruct (bolt.Bucket dbkt (strconv.Itoa (Z.of_nat i))) as [gb|] eqn:Hgb;
    try done.
  - assert (S i ≤ size dbkt)%nat; [|lia]. apply dense_le_size.
    intros j Hj. destruct (decide (j = i)) as [->|]; [|apply Hdense; lia].
    unfold bolt.Bucket in Hgb. destruct (dbkt !! _); [by eauto|done].
  - destruct (readClusterGroup gb); [|done]. apply IH; [|lia].
    intros j Hj. destruct (decide (j = i)) as [->|]; [|apply Hdense; lia].
    unfold bolt.Bucket in Hgb. destruct (dbkt !! _); [by eauto|done].
Qed.

Lemma readClusterDefinition_fuel (dbkt : Bkt) :
  readGroups (size dbkt) dbkt 0 [] ≠ None.
Proof. apply readGroups_fuel; [intros j Hj|]; lia. Qed.

Lemma readClusterDefinition_dense (R : ClusterGroup PeerDefinition → ClusterGroup PeerDefinition → Prop)
    (bkt dbkt : Bkt) gs :
  bolt.Bucket bkt bucketKeyDefinition = Some dbkt →
  (∀ k g, gs !! k = Some g →
     ∃ gb g', bolt.Bucket dbkt (strconv.Itoa (Z.of_nat k)) = Some gb
              ∧ readClusterGroup gb = Ok g' ∧ R g g') →
  bolt.Bucket dbkt (strconv.Itoa (Z.of_nat (length gs))) = None →
  ∃ gs', readClusterDefinition bkt = Ok {| Groups := gs' |} ∧ Forall2 R gs gs'.
Proof.
  intros Hd Hrun Hend. unfold readClusterDefinition. rewrite Hd.
  destruct (readGroups_dense R gs (size dbkt) dbkt 0 [] Hrun Hend) as (gs' & -> & Hall).
  - apply dense_le_size. intros j Hj.
    destruct (lookup_lt_is_Some_2 gs j Hj) as [g Hg].
    destruct (Hrun j g Hg) as (gb & _ & Hgb & _).
    unfold bolt.Bucket in Hgb. destruct (dbkt !! _); [by eauto|done].
  - by exists gs'.
Qed.

(** *** Clusters *)

Ltac lookup_chain :=
  repeat (rewrite lookup_insert_ne by done); rewrite ?lookup_insert_eq.

Lemma writeClusterDefinition_inv (b b' : Bkt) cdef :
  writeClusterDefinition b cdef = Ok b' →
  ∃ dbkt, writeGroups ∅ 0 (Groups cdef) = Ok dbkt
          ∧ b' = <[bucketKeyDefinition := Sub dbkt]> b.
Proof.
  unfold writeClusterDefinition.
  destruct (RecreateBucket b bucketKeyDefinition) as [[b1 c]|] eqn:Hre;
    cbn [bind]; [|done].
  apply RecreateBucket_inv in Hre as [-> ->].
  destruct (writeGroups ∅ 0 (Groups cdef)) as [dbkt|]; cbn [bind]; [|done].
  intros [= <-]. exists dbkt. split; [done|].
  unfold bkt_store. by rewrite insert_insert_eq.
Qed.

Lemma writeCluster_inv (b b' : Bkt) c :
  writeCluster b c = Ok b' → cluster_written c b b'.
Proof.
  unfold writeCluster, WriteTimestamps.
  destruct (marshalTime (CreatedAt c)) as [mc|] eqn:Hmc; cbn [bind]; [|done].
  destruct (marshalTime (UpdatedAt c)) as [mu|] eqn:Hmu; cbn [bind]; [|done].
  destruct (put_fields b _) as [b1|] eqn:H1; cbn [bind]; [|done].
  apply put_fields_inv in H1 as ->.
  destruct (writeClusterDefinition _ _) as [b2|] eqn:H2; cbn [bind]; [|done].
  apply writeClusterDefinition_inv in H2 as (dbkt & Hd & ->).
  destruct (writeLabels _ _) as [b3|] eqn:H3; cbn [bind]; [|done].
  apply writeLabels_inv in H3 as ->.
  intros ->%put_fields_inv. by exists mc, mu, dbkt.
Qed.

Lemma entity_shape_empty : entity_shape ∅.
Proof. by repeat split. Qed.

Lemma writeCluster_ok (b : Bkt) c :
  valid_cluster c → entity_shape b → is_ok (writeCluster b c).
Proof.
  intros ([Hnd Hne] & Hgs & Hc & Hu) (S1 & S2 & S3 & S4 & S5 & S6).
  unfold writeCluster, WriteTimestamps.
  destruct (marshalTime (CreatedAt c)) as [mc|]; [|done].
  destruct (marshalTime (UpdatedAt c)) as [mu|]; [|done]. cbn [bind].
  rewrite put_fields_ok by (by repeat (apply Forall_cons; split; [by split|])).
  cbn [bind puts]. unfold writeClusterDefinition.
  unfold bolt.Bucket, bolt.Get in *.
  rewrite RecreateBucket_ok; [|done|unfold bolt.Get; by lookup_chain].
  cbn [bind].
  destruct (writeGroups_ok (Groups (Definition_ c)) ∅ 0 Hgs) as (dbkt & -> & _);
    [done|].
  cbn [bind]. unfold bkt_store. rewrite insert_insert_eq.
  rewrite writeLabels_ok; [|unfold bolt.Get; by lookup_chain|done].
  cbn [bind]. rewrite put_fields_ok; [done|].
  repeat (apply Forall_cons; split; [split; [done|]|]); try apply Forall_nil_2;
    unfold bolt.Bucket; simpl; by lookup_chain.
Qed.

(** The callback of the flat fields of a cluster. *)
Lemma cluster_field_ID_set v (s s' : Cluster PeerDefinition) :
  cluster_field bucketKeyID (Some v) s = Ok s' → ID s' = v.
Proof.
  unfold cluster_field. rewrite bool_decide_eq_true_2 by done. by intros [= <-].
Qed.

Lemma cluster_field_ID_keep k v (s s' : Cluster PeerDefinition) :
  k ≠ bucketKeyID → cluster_field k v s = Ok s' → ID s' = ID s.
Proof.
  unfold cluster_field. intros Hk. destruct v; [|by intros [= <-]].
  rewrite bool_decide_eq_false_2 by done. case_match; by intros [= <-].
Qed.

Lemma cluster_field_Status_set v (s s' : Cluster PeerDefinition) :
  cluster_field bucketKeyStatus (Some v) s = Ok s' → Status s' = v.
Proof.
  unfold cluster_field. rewrite bool_decide_eq_false_2 by done.
  rewrite bool_decide_eq_true_2 by done. by intros [= <-].
Qed.

Lemma cluster_field_Status_keep k v (s s' : Cluster PeerDefinition) :
  k ≠ bucketKeyStatus → cluster_field k v s = Ok s' → Status s' = Status s.
Proof.
  unfold cluster_field. intros Hk. destruct v; [|by intros [= <-]].
  destruct (bool_decide (k = bucketKeyID)); [by intros [= <-]|].
  rewrite bool_decide_eq_false_2 by done. by intros [= <-].
Qed.

Lemma cluster_field_keep k v (s s' : Cluster PeerDefinition) :
  cluster_field k v s = Ok s' →
  Definition_ s' = Definition_ s ∧ Labels s' = Labels s
  ∧ CreatedAt s' = CreatedAt s ∧ UpdatedAt s' = UpdatedAt s.
Proof.
  unfold cluster_field. repeat case_match; by intros [= <-].
Qed.

Lemma cluster_field_ok k v (s : Cluster PeerDefinition) : is_ok (cluster_field k v s).
Proof. unfold cluster_field. by repeat case_match. Qed.

(** The flat fields of a cluster, read from a container that holds
    both of them. *)
Lemma cluster_fields_read (b : Bkt) (c0 : Cluster PeerDefinition) id status :
  b !! bucketKeyID = Some (Val id) → b !! bucketKeyStatus = Some (Val status) →
  bolt.ForEach b cluster_field c0
  = Ok {| ID := id; Status := status; Definition_ := Definition_ c0;
          Labels := Labels c0; CreatedAt := CreatedAt c0; UpdatedAt := UpdatedAt c0 |}.
Proof.
  intros Hid Hstatus. unfold bolt.ForEach.
  destruct (bolt.for_each (bolt.cursor b) cluster_field c0) as [c'|e] eqn:Hrun.
  - pose proof (cursor_NoDup b) as Hnd.
    assert (ID c' = id) as HI.
    { eapply (for_each_field _ ID bucketKeyID (Some id));
        [intros ??; apply cluster_field_ID_set
        |apply cluster_field_ID_keep|exact Hnd| |exact Hrun].
      apply cursor_elem. by exists (Val id). }
    assert (Status c' = status) as HS.
    { eapply (for_each_field _ Status bucketKeyStatus (Some status));
        [intros ??; apply cluster_field_Status_set
        |apply cluster_field_Status_keep|exact Hnd| |exact Hrun].
      apply cursor_elem. by exists (Val status). }
    pose proof (for_each_keep _ Definition_ _ _ _
      (λ k v s s' Hk, proj1 (cluster_field_keep k v s s' Hk)) Hrun) as HD.
    pose proof (for_each_keep _ Labels _ _ _
      (λ k v s s' Hk, proj1 (proj2 (cluster_field_keep k v s s' Hk))) Hrun) as HL.
    pose proof (for_each_keep _ CreatedAt _ _ _
      (λ k v s s' Hk, proj1 (proj2 (proj2 (cluster_field_keep k v s s' Hk)))) Hrun) as HC.
    pose proof (for_each_keep _ UpdatedAt _ _ _
      (λ k v s s' Hk, proj2 (proj2 (proj2 (cluster_field_keep k v s s' Hk)))) Hrun) as HU.
    rewrite <- HD, <- HL, <- HC, <- HU. destruct c'. simpl in *. by subst.
  - exfalso.
    assert (is_ok (bolt.for_each (bolt.cursor b) cluster_field c0)) as Hok;
      [|by rewrite Hrun in Hok].
    apply for_each_ok. intros k v s _. apply cluster_field_ok.
Qed.

(** Reading back what [writeCluster] wrote. *)
Lemma readCluster_written `{!CodecLaws} (b b' : Bkt) c c0 :
  cluster_written c b b' → valid_cluster c →
  ∃ c', readCluster b' c0 = Ok c' ∧ cluster_equiv c c'.
Proof.
  intros (mc & mu & dbkt & Hmc & Hmu & Hd & ->) ([Hnd Hne] & Hgs & _ & _).
  unfold readCluster, ReadTimestamps, bolt.Get.
  lookup_chain. rewrite (time_roundtrip _ _ Hmc). cbn [bind].
  lookup_chain. rewrite (time_roundtrip _ _ Hmu). cbn [bind].
  destruct (writeGroups_ok (Groups (Definition_ c)) ∅ 0 Hgs)
    as (dbkt' & Hd' & Hwritten & Hframe); [done|].
  rewrite Hd in Hd'. injection Hd' as <-.
  edestruct (readClusterDefinition_dense group_equiv) as (gs' & -> & Hall).
  - unfold bolt.Bucket. by lookup_chain.
  - intros k g Hk. destruct (Hwritten k g Hk) as (gb & Hgb & Hstored).
    pose proof (proj1 (Forall_lookup _ _) Hgs k g Hk) as (Hsize & [Hgnd _] & _).
    destruct (readClusterGroup_stored g gb Hstored Hgnd Hsize) as (g' & Hg' & Heq).
    exists gb, g'. unfold bolt.Bucket. simpl in Hgb. by rewrite Hgb.
  - unfold bolt.Bucket. rewrite Hframe; [done|].
    intros k Hk Heq%Itoa_nat_inj. simpl in Heq. lia.
  - cbn [bind].
    edestruct (readLabels_written) as (labels' & -> & Hperm); [|exact Hnd|].
    { by lookup_chain. }
    cbn [bind]. erewrite cluster_fields_read by by lookup_chain.
    eexists. split; [done|]. by repeat split.
Qed.

End codec_facts.

(** ** The operations on the sample values *)

Example sample_create :
  @CreateCluster _ Sample.collaborators ∅ 100 Sample.cluster1
  = (Sample.store1,
     Ok {| ID := "c1"; Status := "creating";
           Definition_ := {| Groups := [Sample.group0; Sample.group1] |};
           Labels := ["prod"; "blue"]; CreatedAt := 100; UpdatedAt := 100 |}).
Proof. vm_compute. reflexivity. Qed.

Example sample_get :
  @GetCluster _ Sample.collaborators Sample.store1 "c1"
  = Ok {| ID := "c1"; Status := "creating";
          Definition_ := {| Groups := [
            {| Size := 3; InstanceType := "m5.large"; Region := "us-east-1";
               Peer := Some "v0.1.0"; GroupLabels := ["arm"; "canary"] |};
            Sample.group1] |};
          Labels := ["blue"; "prod"]; CreatedAt := 100; UpdatedAt := 100 |}.
Proof. vm_compute. reflexivity. Qed.

Lemma sample_laws : @CodecLaws _ Sample.collaborators.
Proof.
  split.
  - intros t s. simpl. destruct (_ && _) eqn:Hrange; [|done]. intros [= <-].
    apply strconv_facts.Atoi_Itoa. unfold strconv.in_int64. lia.
  - intros p b. simpl. intros [= <-]. unfold bolt.Get.
    by rewrite lookup_singleton_eq.
Qed.

Example sample_update :
  @UpdateCluster _ Sample.collaborators Sample.store1 200 Sample.update1
  = (Sample.store2, Ok Sample.updated1).
Proof. vm_compute. reflexivity. Qed.

Example sample_gapped :
  @readClusterDefinition _ Sample.collaborators Sample.gapped
  = Ok {| Groups := [Sample.decoded_group] |}.
Proof. vm_compute. reflexivity. Qed.

Example sample_bad_size :
  @readCluster _ Sample.collaborators Sample.bad_size zeroCluster
  = Err (NumError "Atoi" "3x" ErrSyntax).
Proof. vm_compute. reflexivity. Qed.

Example sample_labels :
  GenerateLabels Sample.overlap = ["x"; "x"].
Proof. vm_compute. reflexivity. Qed.

Example sample_label_batch :
  ∃ c, (@LabelClusters _ Sample.collaborators Sample.store1 (λ _, 300) ["c1"] ["blue"; "dev"] ["prod"]).2
       = Ok [c] ∧ Labels c = ["blue"; "dev"] ∧ UpdatedAt c = 300 ∧ CreatedAt c = 100.
Proof. eexists. vm_compute. repeat split; reflexivity. Qed.

(** ** The claims *)

Section claims.
Context {PeerDefinition : Type} `{!Collaborators PeerDefinition}.
Import strconv_facts bolt_facts.

(** C1. Round trip: for every valid cluster (no label twice and no
    empty label in a label set, sizes within [int], timestamps and
    peers that their codecs encode; any number of groups, with or
    without a peer), [writeCluster] into a fresh container succeeds,
    and [readCluster] on the result yields a cluster equal to the
    original, the groups in the same order and each label set up to
    its order. *)
Theorem writeCluster_readCluster_roundtrip `{!CodecLaws} (c c0 : Cluster PeerDefinition) :
  valid_cluster c →
  ∃ bkt c', writeCluster ∅ c = Ok bkt
            ∧ readCluster bkt c0 = Ok c'
            ∧ cluster_equiv c c'.
Proof.
  intros Hvalid.
  pose proof (writeCluster_ok ∅ c Hvalid entity_shape_empty) as Hok.
  destruct (writeCluster ∅ c) as [bkt|] eqn:Hwrite; [|done].
  apply writeCluster_inv in Hwrite.
  destruct (readCluster_written ∅ bkt c c0 Hwrite Hvalid) as (c' & Hread & Heq).
  by exists bkt, c'.
Qed.

(** The transaction of [CreateCluster] that succeeds. *)
Lemma CreateCluster_inv (s s' : DB) now c c' :
  CreateCluster s now c = (s', Ok c') →
  ∃ tx1 bkt cbkt,
    Validate c = None
    ∧ createClustersBucket s = Ok (tx1, bkt)
    ∧ ID c ≠ EmptyString ∧ bkt !! ID c = None
    ∧ c' = {| ID := ID c; Status := Status c; Definition_ := Definition_ c;
              Labels := Labels c; CreatedAt := now; UpdatedAt := now |}
    ∧ writeCluster ∅ c' = Ok cbkt
    ∧ s' = tx_store tx1 (<[ID c := Sub cbkt]> bkt).
Proof.
  unfold CreateCluster. destruct (Validate c) eqn:Hv; [done|].
  unfold db_Update.
  destruct (createClustersBucket s) as [[tx1 bkt]|] eqn:Hc; cbn [bind]; [|done].
  destruct (bolt.CreateBucket bkt (ID c)) as [[bkt1 cbkt0]|e] eqn:Hcb.
  - pose proof Hcb as Hcb'. apply CreateBucket_inv in Hcb as (Hnone & -> & ->).
    destruct (writeCluster ∅ _) as [cbkt|] eqn:Hw; cbn [bind]; [|done].
    intros [= <- <-]. exists tx1, bkt, cbkt. repeat split; try done.
    + intros Hid. unfold bolt.CreateBucket in Hcb'.
      by rewrite bool_decide_eq_true_2 in Hcb'.
    + unfold bkt_store. by rewrite insert_insert_eq.
  - by case_bool_decide.
Qed.

Lemma createClustersBucket_stored (tx tx1 : DB) (bkt bkt' : Bkt) :
  createClustersBucket tx = Ok (tx1, bkt) →
  createClustersBucket (tx_store tx1 bkt') = Ok (tx_store tx1 bkt', bkt').
Proof.
  intros _. unfold createClustersBucket, tx_store. by rewrite lookup_insert_eq.
Qed.

(** C2. After a [CreateCluster] that succeeded, a second
    [CreateCluster] with the same identifier returns an AlreadyExists
    error and leaves the store, and so the persisted state of the first
    entity, as it was. *)
Theorem CreateCluster_twice (s s1 : DB) now now' (c c1 c2 : Cluster PeerDefinition) :
  CreateCluster s now c = (s1, Ok c1) →
  ID c2 = ID c →
  ∃ e, CreateCluster s1 now' c2 = (s1, Err e) ∧ IsAlreadyExists e.
Proof.
  intros Hfirst Hid.
  apply CreateCluster_inv in Hfirst
    as (tx1 & bkt & cbkt & Hv & Hc & Hne & Hnone & -> & Hw & ->).
  exists (Wrapf ErrAlreadyExists "cluster %q" (ID c2)). split; [|done].
  unfold CreateCluster, Validate in *. rewrite Hid, Hv. unfold db_Update.
  rewrite (createClustersBucket_stored _ _ _ _ Hc). cbn [bind].
  unfold bolt.CreateBucket. rewrite bool_decide_eq_false_2 by done.
  rewrite lookup_insert_eq. by rewrite bool_decide_eq_false_2 by naive_solver.
Qed.

(** C9. A [CreateCluster] that succeeds returns the entity with both
    timestamps set to the current time, whatever timestamps the caller
    supplied, and persists them: the timestamps read from the entity's
    container are both the current time. *)
Theorem CreateCluster_timestamps `{!CodecLaws} (s s' : DB) now (c c' : Cluster PeerDefinition) :
  CreateCluster s now c = (s', Ok c') →
  Validate c = None
  ∧ c' = {| ID := ID c; Status := Status c; Definition_ := Definition_ c;
            Labels := Labels c; CreatedAt := now; UpdatedAt := now |}
  ∧ ∃ bkt cbkt,
      getClustersBucket s' = Some bkt
      ∧ bolt.Bucket bkt (ID c) = Some cbkt
      ∧ ∀ t1 t2, ReadTimestamps cbkt t1 t2 = Ok (now, now).
Proof.
  intros Hcreate.
  apply CreateCluster_inv in Hcreate
    as (tx1 & bkt & cbkt & Hv & Hc & Hne & Hnone & -> & Hw & ->).
  split; [done|]. split; [done|].
  exists (<[ID c := Sub cbkt]> bkt), cbkt. split.
  { unfold getClustersBucket, tx_store. apply lookup_insert_eq. }
  split.
  { unfold bolt.Bucket. by rewrite lookup_insert_eq. }
  intros t1 t2. apply writeCluster_inv in Hw
    as (mc & mu & dbkt & Hmc & Hmu & _ & ->). simpl in Hmc, Hmu.
  unfold ReadTimestamps, bolt.Get.
  repeat (rewrite lookup_insert_ne by done). rewrite lookup_insert_eq.
  rewrite (time_roundtrip _ _ Hmc). cbn [bind].
  repeat (rewrite lookup_insert_ne by done). rewrite lookup_insert_eq.
  by rewrite (time_roundtrip _ _ Hmu).
Qed.

(** C8. [DeleteCluster] returns a NotFound error when the clusters
    collection exists and holds nothing under the identifier; it
    succeeds, and changes nothing, when the clusters collection itself
    is absent; and after a [DeleteCluster] that succeeded, [GetCluster]
    on the same identifier returns a NotFound error. *)
Theorem DeleteCluster_cases (s : DB) (id : string) :
  (∀ bkt, getClustersBucket s = Some bkt → bkt !! id = None →
     ∃ e, DeleteCluster s id = (s, Err e) ∧ IsNotFound e)
  ∧ (getClustersBucket s = None → DeleteCluster s id = (s, Ok tt))
  ∧ (∀ s', DeleteCluster s id = (s', Ok tt) →
       ∃ e, GetCluster s' id = Err e ∧ IsNotFound e).
Proof.
  unfold DeleteCluster, db_Update. repeat split.
  - intros bkt -> Hnone. unfold bolt.DeleteBucket. rewrite Hnone. simpl.
    by eexists.
  - by intros ->.
  - intros s'. unfold GetCluster, db_View.
    destruct (getClustersBucket s) as [bkt|] eqn:Hbkt.
    + unfold bolt.DeleteBucket.
      destruct (bkt !! id) as [[v|m]|] eqn:Hid; simpl; try done.
      intros [= <-]. unfold getClustersBucket, tx_store, bolt.Bucket.
      rewrite lookup_insert_eq, lookup_delete_eq. by eexists.
    + intros [= <-]. rewrite Hbkt. by eexists.
Qed.

(** A group container without a peer container decodes without a
    peer, and decodes whenever its size entry, if any, parses. *)
Lemma readClusterGroup_no_peer (gbkt : Bkt) :
  bolt.Bucket gbkt bucketKeyDefinition = None →
  (∀ n, gbkt !! bucketKeySize = Some n →
     is_ok (strconv.Atoi (string_of (bolt.flat n)))) →
  ∃ g, readClusterGroup gbkt = Ok g ∧ Peer g = None.
Proof.
  intros Hnone Hsize. unfold readClusterGroup.
  pose proof (readLabels_total gbkt) as Hl.
  destruct (readLabels gbkt) as [labels|]; [|done]. cbn [bind]. rewrite Hnone.
  cbn [bind]. unfold bolt.ForEach.
  destruct (bolt.for_each _ _ _) as [g|] eqn:Hrun.
  - exists g. split; [done|].
    by rewrite (for_each_keep _ Peer _ _ _
      (λ k v s s' Hk, proj1 (group_field_keep k v s s' Hk)) Hrun).
  - exfalso. eassert (is_ok (bolt.for_each _ _ _)) as Hok; [|by erewrite Hrun in Hok].
    apply for_each_ok. intros k v s Hin. apply group_field_ok.
    destruct (decide (k = bucketKeySize)) as [->|]; [right|by left].
    apply cursor_elem in Hin as (n & Hn & <-). by apply Hsize.
Qed.

(** C3. A missing "definition" container decodes to the empty
    definition, without error; the groups are found by probing the
    decimal keys 0, 1, 2, ... up to the first one that is not a
    container, so that the decoded list is the dense run below the first
    gap, whatever lies beyond it; and a group without a peer container
    decodes with an absent peer, which is not an error. *)
Theorem readClusterDefinition_edge_cases :
  (∀ bkt : Bkt,
     bolt.Bucket bkt bucketKeyDefinition = None →
     readClusterDefinition bkt = Ok {| Groups := [] |})
  ∧ (∀ (bkt dbkt : Bkt) gs,
       bolt.Bucket bkt bucketKeyDefinition = Some dbkt →
       (∀ k g, gs !! k = Some g →
          ∃ gb, bolt.Bucket dbkt (strconv.Itoa (Z.of_nat k)) = Some gb
                ∧ readClusterGroup gb = Ok g) →
       bolt.Bucket dbkt (strconv.Itoa (Z.of_nat (length gs))) = None →
       readClusterDefinition bkt = Ok {| Groups := gs |})
  ∧ (∀ gbkt : Bkt,
       bolt.Bucket gbkt bucketKeyDefinition = None →
       (∀ n, gbkt !! bucketKeySize = Some n →
          is_ok (strconv.Atoi (string_of (bolt.flat n)))) →
       ∃ g, readClusterGroup gbkt = Ok g ∧ Peer g = None).
Proof.
  split; [|split].
  - intros bkt Hnone. unfold readClusterDefinition. by rewrite Hnone.
  - intros bkt dbkt gs Hd Hrun Hend.
    destruct (readClusterDefinition_dense eq bkt dbkt gs Hd) as (gs' & -> & Hall);
      [|done|].
    + intros k g Hk. destruct (Hrun k g Hk) as (gb & Hgb & Hread). by exists gb, g.
    + apply list_eq_Forall2 in Hall. by subst.
  - apply readClusterGroup_no_peer.
Qed.

(** Decoding a group whose size text is not decimal fails; the error
    is the one of [Atoi] unless the peer fails to decode first. *)
Lemma readClusterGroup_bad_size (gbkt : Bkt) v :
  bolt.Get gbkt bucketKeySize = Some v →
  strconv.is_decimal_text v = false →
  ∃ e, readClusterGroup gbkt = Err e
       ∧ (bolt.Bucket gbkt bucketKeyDefinition = None ∨ is_ok (readPeerDefinition gbkt) →
          ∃ k, e = NumError "Atoi" v k).
Proof.
  intros Hsize Hv. destruct (Atoi_not_decimal v Hv) as (kind & Hatoi).
  assert (gbkt !! bucketKeySize = Some (Val v)) as Hlook.
  { unfold bolt.Get in Hsize. by destruct (gbkt !! bucketKeySize) as [[]|]; simplify_eq. }
  assert (∀ g0 : ClusterGroup PeerDefinition,
            bolt.ForEach gbkt group_field g0 = Err (NumError "Atoi" v kind)) as Hfail.
  { intros g0. apply (for_each_err _ _ _ bucketKeySize (Some v)).
    - apply cursor_NoDup.
    - apply cursor_elem. by exists (Val v).
    - intros s. unfold group_field. rewrite bool_decide_eq_true_2 by done.
      simpl. by rewrite Hatoi.
    - intros k v' s Hk. apply group_field_ok. by left. }
  unfold readClusterGroup.
  pose proof (readLabels_total gbkt) as Hl.
  destruct (readLabels gbkt) as [labels|]; [|done]. cbn [bind].
  destruct (bolt.Bucket gbkt bucketKeyDefinition) as [pb|] eqn:Hpb.
  - destruct (readPeerDefinition gbkt) as [pdef|e] eqn:Hpeer; cbn [bind].
    + rewrite Hfail. eauto.
    + exists e. split; [done|]. by intros [|].
  - cbn [bind]. rewrite Hfail. eauto.
Qed.

Lemma readGroups_bad (dbkt gbkt : Bkt) (i : nat) e :
  bolt.Bucket dbkt (strconv.Itoa (Z.of_nat i)) = Some gbkt →
  readClusterGroup gbkt = Err e →
  ∀ (fuel i0 : nat) acc,
    (i0 ≤ i)%nat →
    (∀ k, (i0 ≤ k < i)%nat → is_Some (bolt.Bucket dbkt (strconv.Itoa (Z.of_nat k)))) →
    (i - i0 < fuel)%nat →
    ∃ e', readGroups fuel dbkt i0 acc = Some (Err e')
          ∧ ((∀ k gb, (i0 ≤ k < i)%nat →
                bolt.Bucket dbkt (strconv.Itoa (Z.of_nat k)) = Some gb →
                is_ok (readClusterGroup gb)) → e' = e).
Proof.
  intros Hgb Hbad. induction fuel as [|fuel IH]; intros i0 acc Hle Hdense Hfuel; [lia|].
  cbn [readGroups]. destruct (decide (i0 = i)) as [->|Hne].
  - rewrite Hgb, Hbad. by exists e.
  - destruct (Hdense i0) as [gb Hgb0]; [lia|]. rewrite Hgb0.
    destruct (readClusterGroup gb) as [g|e0] eqn:Hread.
    + destruct (IH (S i0) (acc ++ [g])%list) as (e' & -> & He'); [lia| |lia|].
      * intros k Hk. apply Hdense. lia.
      * exists e'. split; [done|]. intros Hok. apply He'.
        intros k gb' Hk. apply Hok. lia.
    + exists e0. split; [done|]. intros Hok.
      specialize (Hok i0 gb). rewrite Hread in Hok. exfalso. apply Hok; [lia|done].
Qed.

(** C6. When the group container at position [i] of the dense run of
    group containers holds a size text that is not a decimal integer,
    decoding the cluster fails; the error returned is the [NumError] of
    [Atoi] on that text, a format error, whenever what is decoded before
    the size (the timestamps, the groups below [i], the peer of the
    group) decodes.  No value stands in for the size. *)
Theorem readCluster_bad_size (bkt dbkt gbkt : Bkt) (i : nat) (v : string) (c0 : Cluster PeerDefinition) :
  bolt.Bucket bkt bucketKeyDefinition = Some dbkt →
  (∀ k, (k < i)%nat → is_Some (bolt.Bucket dbkt (strconv.Itoa (Z.of_nat k)))) →
  bolt.Bucket dbkt (strconv.Itoa (Z.of_nat i)) = Some gbkt →
  bolt.Get gbkt bucketKeySize = Some v →
  strconv.is_decimal_text v = false →
  ∃ e, readCluster bkt c0 = Err e
       ∧ (is_ok (ReadTimestamps bkt (CreatedAt c0) (UpdatedAt c0)) →
          (∀ k gb, (k < i)%nat →
             bolt.Bucket dbkt (strconv.Itoa (Z.of_nat k)) = Some gb →
             is_ok (readClusterGroup gb)) →
          bolt.Bucket gbkt bucketKeyDefinition = None ∨ is_ok (readPeerDefinition gbkt) →
          IsFormatError e ∧ ∃ k, e = NumError "Atoi" v k).
Proof.
  intros Hd Hdense Hgb Hsize Hv.
  destruct (readClusterGroup_bad_size gbkt v Hsize Hv) as (eg & Hbad & Hkind).
  destruct (readGroups_bad dbkt gbkt i eg Hgb Hbad (size dbkt) 0 [])
    as (e' & Hrun & He'); [lia|intros k Hk; apply Hdense; lia| |].
  { assert (S i ≤ size dbkt)%nat; [|lia]. apply dense_le_size. intros j Hj.
    assert (is_Some (bolt.Bucket dbkt (strconv.Itoa (Z.of_nat j)))) as [gb Hj'].
    { destruct (decide (j = i)) as [->|]; [by eauto|apply Hdense; lia]. }
    unfold bolt.Bucket in Hj'. destruct (dbkt !! _); [by eauto|done]. }
  unfold readCluster.
  destruct (ReadTimestamps bkt _ _) as [[created updated]|et] eqn:Ht; cbn [bind].
  - unfold readClusterDefinition. rewrite Hd, Hrun. cbn [bind].
    exists e'. split; [done|]. intros _ Hgroups Hpeer.
    rewrite He' by (intros k gb Hk; apply Hgroups; lia).
    destruct (Hkind Hpeer) as (k & ->). split; [done|by exists k].
  - exists et. split; [done|]. by intros [].
Qed.

(** The identifier [readCluster] leaves: the stored "id" field when
    there is one, else the identifier it was given. *)
Lemma readCluster_ID (cbkt : Bkt) (c0 c : Cluster PeerDefinition) :
  readCluster cbkt c0 = Ok c →
  ID c = default (ID c0) (bolt.Get cbkt bucketKeyID).
Proof.
  unfold readCluster.
  destruct (ReadTimestamps _ _ _) as [[created updated]|]; cbn [bind]; [|done].
  destruct (readClusterDefinition cbkt) as [cdef|]; cbn [bind]; [|done].
  destruct (readLabels cbkt) as [labels|]; cbn [bind]; [|done].
  unfold bolt.ForEach, bolt.Get. intros Hrun.
  destruct (cbkt !! bucketKeyID) as [[v|m]|] eqn:Hid; simpl.
  - eapply (for_each_field _ ID bucketKeyID (Some v));
      [intros ??; apply cluster_field_ID_set
      |apply cluster_field_ID_keep|apply cursor_NoDup| |exact Hrun].
    apply cursor_elem. by exists (Val v).
  - etrans; [eapply (for_each_keep_in cluster_field ID); [|exact Hrun]|done].
    intros k v s s' Hin. destruct (decide (k = bucketKeyID)) as [->|Hk].
    + apply cursor_elem in Hin as (n & Hn & <-). rewrite Hid in Hn.
      injection Hn as <-. simpl. by intros [= <-].
    + by apply cluster_field_ID_keep.
  - etrans; [eapply (for_each_absent cluster_field ID bucketKeyID);
               [apply cluster_field_ID_keep| |exact Hrun]|done].
    rewrite cursor_key, Hid. by intros [? ?].
Qed.

Lemma list_entries_ID (bkt : Bkt) es : ∀ acc cs,
  bolt.for_each es (list_entry bkt) acc = Ok cs →
  ∃ cs', cs = (acc ++ cs')%list
         ∧ Forall2 (λ (kv : string * option string) (c : Cluster PeerDefinition),
                      ∀ cbkt v, bolt.Bucket bkt kv.1 = Some cbkt →
                                bolt.Get cbkt bucketKeyID = Some v → ID c = v) es cs'.
Proof.
  induction es as [|[k v] es IH]; intros acc cs; simpl.
  - intros [= <-]. exists []. by rewrite app_nil_r.
  - unfold list_entry at 1.
    destruct (bolt.Bucket bkt k) as [cbkt|] eqn:Hk; cbn [bind]; [|done].
    destruct (readCluster cbkt _) as [c|] eqn:Hread; cbn [bind]; [|done].
    intros (cs' & -> & Hall)%IH. exists (c :: cs'). rewrite <- app_assoc.
    split; [done|]. constructor; [|done]. simpl. intros cbkt' v' Hk' Hv'.
    rewrite Hk in Hk'. injection Hk' as <-.
    apply readCluster_ID in Hread. by rewrite Hv' in Hread.
Qed.

(** C10. When the "id" flat field of a stored entity is present, the
    cluster [GetCluster] returns, and the cluster [ListClusters]
    returns for it, has that field's value as its identifier, not the
    lookup argument or the container key; the two agree because
    [writeCluster] writes the identifier of the cluster as the "id"
    field. *)
Theorem decoded_ID_is_stored_field :
  (∀ (s : DB) id (bkt cbkt : Bkt) v (c : Cluster PeerDefinition),
     getClustersBucket s = Some bkt → bolt.Bucket bkt id = Some cbkt →
     bolt.Get cbkt bucketKeyID = Some v →
     GetCluster s id = Ok c → ID c = v)
  ∧ (∀ (s : DB) (bkt : Bkt) (cs : list (Cluster PeerDefinition)),
       getClustersBucket s = Some bkt → ListClusters s = Ok cs →
       Forall2 (λ (kv : string * option string) (c : Cluster PeerDefinition),
                  ∀ cbkt v, bolt.Bucket bkt kv.1 = Some cbkt →
                            bolt.Get cbkt bucketKeyID = Some v → ID c = v)
               (bolt.cursor bkt) cs)
  ∧ (∀ (b b' : Bkt) (c : Cluster PeerDefinition),
       writeCluster b c = Ok b' → bolt.Get b' bucketKeyID = Some (ID c)).
Proof.
  split; [|split].
  - intros s id bkt cbkt v c Hbkt Hcbkt Hv. unfold GetCluster, db_View.
    rewrite Hbkt, Hcbkt. destruct (readCluster cbkt _) as [c'|] eqn:Hread; [|done].
    intros [= <-]. apply readCluster_ID in Hread. by rewrite Hv in Hread.
  - intros s bkt cs Hbkt. unfold ListClusters, db_View, bolt.ForEach. rewrite Hbkt.
    intros (cs' & -> & Hall)%list_entries_ID. done.
  - intros b b' c (mc & mu & dbkt & _ & _ & _ & ->)%writeCluster_inv.
    unfold bolt.Get. rewrite lookup_insert_ne by done. by rewrite lookup_insert_eq.
Qed.

(** The pass of [batchUpdateLabels] over the identifiers stops at one
    that has no container. *)
Lemma requireAll_missing (bkt : Bkt) ids id :
  id ∈ ids → bolt.Bucket bkt id = None →
  ∃ id', requireAll bkt ids = Err (Wrapf ErrNotFound "%q" id').
Proof.
  induction ids as [|id0 ids IH]; intros Hin Hnone; [by apply elem_of_nil in Hin|].
  cbn [requireAll]. destruct (bolt.Bucket bkt id0) eqn:Hid0; [|by eauto].
  apply elem_of_cons in Hin as [->|Hin]; [congruence|]. by apply IH.
Qed.

(** A failed [LabelClusters] leaves the store as it was, whatever the
    failure. *)
Lemma LabelClusters_rollback (s s' : DB) now ids adds removes e :
  LabelClusters s now ids adds removes = (s', Err e) → s' = s.
Proof.
  unfold LabelClusters, db_Update. destruct (bind _ _) as [[]|]; by intros [= <-].
Qed.

(** C7. If an identifier of the batch has no entity (no clusters
    collection, or no container under the identifier), [LabelClusters]
    returns a NotFound error and leaves the store as it was: no entity
    of the batch has its labels or its updated-timestamp changed. *)
Theorem LabelClusters_all_or_nothing (s : DB) now ids adds removes id :
  id ∈ ids →
  (∀ bkt, getClustersBucket s = Some bkt → bolt.Bucket bkt id = None) →
  ∃ e, LabelClusters s now ids adds removes = (s, Err e) ∧ IsNotFound e.
Proof.
  intros Hin Habsent. unfold LabelClusters, db_Update, createClustersBucket.
  unfold getClustersBucket in Habsent.
  destruct (s !! bucketKeyClusters) as [bkt|] eqn:Hbkt; cbn [bind];
    unfold batchUpdateLabels.
  - destruct (requireAll_missing bkt ids id Hin (Habsent bkt eq_refl)) as (id' & ->).
    cbn [bind]. by eexists.
  - destruct (requireAll_missing ∅ ids id Hin) as (id' & ->); [done|].
    cbn [bind]. by eexists.
Qed.

(** The transaction of [UpdateCluster] that succeeds. *)
Lemma UpdateCluster_inv (s s' : DB) now c c' :
  UpdateCluster s now c = (s', Ok c') →
  ∃ tx1 bkt cbkt cbkt',
    ID c ≠ EmptyString
    ∧ createClustersBucket s = Ok (tx1, bkt)
    ∧ bolt.Bucket bkt (ID c) = Some cbkt
    ∧ c' = {| ID := ID c; Status := Status c; Definition_ := Definition_ c;
              Labels := Labels c; CreatedAt := CreatedAt c; UpdatedAt := now |}
    ∧ writeCluster cbkt c' = Ok cbkt'
    ∧ s' = tx_store tx1 (<[ID c := Sub cbkt']> bkt).
Proof.
  unfold UpdateCluster. case_bool_decide as Hid; [done|]. unfold db_Update.
  destruct (createClustersBucket s) as [[tx1 bkt]|] eqn:Hc; cbn [bind]; [|done].
  destruct (bolt.Bucket bkt (ID c)) as [cbkt|] eqn:Hcbkt; [|done].
  destruct (writeCluster cbkt _) as [cbkt'|] eqn:Hw; cbn [bind]; [|done].
  intros [= <- <-]. by exists tx1, bkt, cbkt, cbkt'.
Qed.

(** C4, amended. An [UpdateCluster] that succeeds persists the
    identifier and the created-timestamp of its input (they are the
    committed ones when the caller passes those back) and the current
    time as updated-timestamp, and returns the input with that
    updated-timestamp. *)
Theorem UpdateCluster_persists_input `{!CodecLaws} (s s' : DB) now (c c' : Cluster PeerDefinition) :
  UpdateCluster s now c = (s', Ok c') →
  c' = {| ID := ID c; Status := Status c; Definition_ := Definition_ c;
          Labels := Labels c; CreatedAt := CreatedAt c; UpdatedAt := now |}
  ∧ ∃ bkt cbkt,
      getClustersBucket s' = Some bkt
      ∧ bolt.Bucket bkt (ID c) = Some cbkt
      ∧ bolt.Get cbkt bucketKeyID = Some (ID c)
      ∧ ∀ t1 t2, ReadTimestamps cbkt t1 t2 = Ok (CreatedAt c, now).
Proof.
  intros (tx1 & bkt & cbkt & cbkt' & Hid & Hc & Hcbkt & -> & Hw & ->)%UpdateCluster_inv.
  split; [done|]. exists (<[ID c := Sub cbkt']> bkt), cbkt'. split.
  { unfold getClustersBucket, tx_store. apply lookup_insert_eq. }
  split.
  { unfold bolt.Bucket. by rewrite lookup_insert_eq. }
  apply writeCluster_inv in Hw as (mc & mu & dbkt & Hmc & Hmu & _ & ->).
  simpl in Hmc, Hmu. split.
  { unfold bolt.Get. rewrite lookup_insert_ne by done. by rewrite lookup_insert_eq. }
  intros t1 t2. unfold ReadTimestamps, bolt.Get.
  repeat (rewrite lookup_insert_ne by done). rewrite lookup_insert_eq.
  rewrite (time_roundtrip _ _ Hmc). cbn [bind].
  repeat (rewrite lookup_insert_ne by done). rewrite lookup_insert_eq.
  by rewrite (time_roundtrip _ _ Hmu).
Qed.

End claims.

Section labels.
Context {PeerDefinition : Type}.

Lemma elem_of_field_set (f : ClusterGroup PeerDefinition → string) gs :
  ∀ (acc : gset string) x,
    x ∈ foldl (λ set g, {[f g]} ∪ set) acc gs ↔ x ∈ acc ∨ x ∈ f <$> gs.
Proof.
  induction gs as [|g gs IH]; intros acc x; simpl.
  - rewrite elem_of_nil. tauto.
  - rewrite IH, elem_of_cons, elem_of_union, elem_of_singleton. tauto.
Qed.

Lemma elem_of_regionSet (d : ClusterDefinition PeerDefinition) x :
  x ∈ regionSet d ↔ x ∈ Region <$> Groups d.
Proof.
  unfold regionSet. rewrite elem_of_field_set, elem_of_empty. tauto.
Qed.

Lemma elem_of_instanceTypeSet (d : ClusterDefinition PeerDefinition) x :
  x ∈ instanceTypeSet d ↔ x ∈ InstanceType <$> Groups d.
Proof.
  unfold instanceTypeSet. rewrite elem_of_field_set, elem_of_empty. tauto.
Qed.

(** A pass over a map used as a set yields each key once. *)
Lemma count_occ_elements (X : gset string) (l : list string) x :
  l ≡ₚ elements X →
  count_occ string_dec l x = if decide (x ∈ X) then 1%nat else 0%nat.
Proof.
  intros Hperm. rewrite (Permutation_count_occ string_dec l (elements X)) in Hperm.
  rewrite Hperm. case_decide as Hin.
  - apply NoDup_count_occ'; [apply NoDup_ListNoDup, NoDup_elements|].
    apply list_elem_of_In. by apply elem_of_elements.
  - apply count_occ_not_In. rewrite <- list_elem_of_In, elem_of_elements. done.
Qed.

Lemma GenerateLabels_returns_fn (d : ClusterDefinition PeerDefinition) :
  GenerateLabels_returns d (GenerateLabels d).
Proof. by exists (elements (regionSet d)), (elements (instanceTypeSet d)). Qed.

(** C5, amended. [GenerateLabels] returns each distinct region once and
    each distinct instance type once: every region and every instance
    type of a group occurs in the result, nothing else does, and a string
    occurs once for being a region and once for being an instance type,
    so twice, and not once, when it is both. *)
Theorem GenerateLabels_occurrences (d : ClusterDefinition PeerDefinition)
    (labels : list string) :
  GenerateLabels_returns d labels →
  (∀ g, g ∈ Groups d → Region g ∈ labels ∧ InstanceType g ∈ labels)
  ∧ (∀ x, x ∈ labels → x ∈ Region <$> Groups d ∨ x ∈ InstanceType <$> Groups d)
  ∧ (∀ x, count_occ string_dec labels x
          = ((if decide (x ∈ Region <$> Groups d) then 1 else 0)
             + (if decide (x ∈ InstanceType <$> Groups d) then 1 else 0))%nat).
Proof.
  intros (regions & types & Hr & Ht & ->).
  assert (∀ x, x ∈ regions ↔ x ∈ Region <$> Groups d) as Hrin.
  { intros x. by rewrite Hr, elem_of_elements, elem_of_regionSet. }
  assert (∀ x, x ∈ types ↔ x ∈ InstanceType <$> Groups d) as Htin.
  { intros x. by rewrite Ht, elem_of_elements, elem_of_instanceTypeSet. }
  split; [|split].
  - intros g Hg. split; rewrite elem_of_app, Hrin, Htin.
    + left. by apply list_elem_of_fmap_2.
    + right. by apply list_elem_of_fmap_2.
  - intros x. rewrite elem_of_app, Hrin, Htin. tauto.
  - intros x. rewrite count_occ_app.
    rewrite (count_occ_elements (regionSet d) regions x Hr).
    rewrite (count_occ_elements (instanceTypeSet d) types x Ht).
    f_equal.
    + destruct (decide (x ∈ regionSet d)) as [Hin|Hout];
        rewrite elem_of_regionSet in *;
        [by rewrite decide_True|by rewrite decide_False].
    + destruct (decide (x ∈ instanceTypeSet d)) as [Hin|Hout];
        rewrite elem_of_instanceTypeSet in *;
        [by rewrite decide_True|by rewrite decide_False].
Qed.

End labels.

(** * Further properties of the package *)

(** ** The flat fields of a cluster *)

Section decode.
Context {PeerDefinition : Type} `{!Collaborators PeerDefinition}.
Import strconv_facts bolt_facts.

(** A variable that the callback assigns from the flat value under
    [k0], and leaves alone otherwise, ends as that value when there is
    one and as it was when there is none. *)
Lemma ForEach_assigned {S A : Type} (fn : string → option string → S → result S)
    (get : S → A) (k0 : string) (of_val : string → A) (b : Bkt) s s' :
  (∀ v s s', fn k0 (Some v) s = Ok s' → get s' = of_val v) →
  (∀ s s', fn k0 None s = Ok s' → get s' = get s) →
  (∀ k v s s', k ≠ k0 → fn k v s = Ok s' → get s' = get s) →
  bolt.ForEach b fn s = Ok s' →
  get s' = match bolt.Get b k0 with Some v => of_val v | None => get s end.
Proof.
  intros Hset Hnil Hkeep Hrun. unfold bolt.ForEach, bolt.Get in *.
  destruct (b !! k0) as [[v|m]|] eqn:Hk.
  - eapply (for_each_field fn get k0 (Some v));
      [intros ??; apply Hset|exact Hkeep|apply cursor_NoDup| |exact Hrun].
    apply cursor_elem. by exists (Val v).
  - eapply (for_each_keep_in fn get); [|exact Hrun].
    intros k v s1 s2 Hin. destruct (decide (k = k0)) as [->|Hne]; [|by apply Hkeep].
    apply cursor_elem in Hin as (n & Hn & <-). rewrite Hk in Hn.
    injection Hn as <-. apply Hnil.
  - eapply (for_each_absent fn get k0); [exact Hkeep| |exact Hrun].
    rewrite cursor_key, Hk. by intros [? ?].
Qed.

Lemma cluster_field_nil k (s s' : Cluster PeerDefinition) :
  cluster_field k None s = Ok s' → s' = s.
Proof. by intros [= <-]. Qed.

(** What the iteration over the flat fields makes of a cluster. *)
Lemma cluster_fields_decode (b : Bkt) (c1 : Cluster PeerDefinition) :
  bolt.ForEach b cluster_field c1
  = Ok {| ID := default (ID c1) (bolt.Get b bucketKeyID);
          Status := default (Status c1) (bolt.Get b bucketKeyStatus);
          Definition_ := Definition_ c1; Labels := Labels c1;
          CreatedAt := CreatedAt c1; UpdatedAt := UpdatedAt c1 |}.
Proof.
  destruct (bolt.ForEach b cluster_field c1) as [c'|e] eqn:Hrun.
  - pose proof (ForEach_assigned cluster_field ID bucketKeyID id b c1 c'
      (λ v s s', cluster_field_ID_set v s s')
      (λ s s' H, f_equal ID (cluster_field_nil _ s s' H))
      cluster_field_ID_keep Hrun) as HI.
    pose proof (ForEach_assigned cluster_field Status bucketKeyStatus id b c1 c'
      (λ v s s', cluster_field_Status_set v s s')
      (λ s s' H, f_equal Status (cluster_field_nil _ s s' H))
      cluster_field_Status_keep Hrun) as HS.
    unfold bolt.ForEach in Hrun.
    pose proof (for_each_keep _ Definition_ _ _ _
      (λ k v s s' Hk, proj1 (cluster_field_keep k v s s' Hk)) Hrun) as HD.
    pose proof (for_each_keep _ Labels _ _ _
      (λ k v s s' Hk, proj1 (proj2 (cluster_field_keep k v s s' Hk))) Hrun) as HL.
    pose proof (for_each_keep _ CreatedAt _ _ _
      (λ k v s s' Hk, proj1 (proj2 (proj2 (cluster_field_keep k v s s' Hk)))) Hrun) as HC.
    pose proof (for_each_keep _ UpdatedAt _ _ _
      (λ k v s s' Hk, proj2 (proj2 (proj2 (cluster_field_keep k v s s' Hk)))) Hrun) as HU.
    rewrite <- HD, <- HL, <- HC, <- HU. f_equal. destruct c'. simpl in *.
    f_equal; [rewrite HI|rewrite HS]; by destruct (bolt.Get b _).
  - exfalso. unfold bolt.ForEach in Hrun.
    assert (is_ok (bolt.for_each (bolt.cursor b) cluster_field c1)) as Hok;
      [|by rewrite Hrun in Hok].
    apply for_each_ok. intros k v s _. apply cluster_field_ok.
Qed.

(** [readCluster] in terms of the entries it looks up. *)
Lemma readCluster_decode (b : Bkt) (c0 : Cluster PeerDefinition) :
  readCluster b c0
  = do (created, updated) <- ReadTimestamps b (CreatedAt c0) (UpdatedAt c0);
    do cdef <- readClusterDefinition b;
    do labels <- readLabels b;
    Ok {| ID := default (ID c0) (bolt.Get b bucketKeyID);
          Status := default (Status c0) (bolt.Get b bucketKeyStatus);
          Definition_ := cdef; Labels := labels;
          CreatedAt := created; UpdatedAt := updated |}.
Proof.
  unfold readCluster.
  destruct (ReadTimestamps _ _ _) as [[created updated]|]; cbn [bind]; [|done].
  destruct (readClusterDefinition b) as [cdef|]; cbn [bind]; [|done].
  destruct (readLabels b) as [labels|]; cbn [bind]; [|done].
  by rewrite cluster_fields_decode.
Qed.

(** X1. The identifier and the status of the cluster [readCluster]
    returns are the flat fields stored under "id" and "status" where
    there is one, and those of the cluster passed in where there is
    none, or a nested container in its place. *)
Theorem readCluster_flat_fields (b : Bkt) (c0 c : Cluster PeerDefinition) :
  readCluster b c0 = Ok c →
  ID c = default (ID c0) (bolt.Get b bucketKeyID)
  ∧ Status c = default (Status c0) (bolt.Get b bucketKeyStatus).
Proof.
  rewrite readCluster_decode.
  destruct (ReadTimestamps b _ _) as [[created updated]|]; cbn [bind]; [|done].
  destruct (readClusterDefinition b) as [cdef|]; cbn [bind]; [|done].
  destruct (readLabels b) as [labels|]; cbn [bind]; [|done].
  by intros [= <-].
Qed.

(** X2. An entry under a key that [readCluster] does not know, a flat
    field or a nested container, changes nothing of what it decodes. *)
Theorem readCluster_ignores_unknown_key (b : Bkt) (k : string) (n : Node)
    (c0 : Cluster PeerDefinition) :
  k ∉ [bucketKeyCreatedAt; bucketKeyUpdatedAt; bucketKeyDefinition;
       bucketKeyLabels; bucketKeyID; bucketKeyStatus] →
  readCluster (<[k := n]> b) c0 = readCluster b c0.
Proof.
  intros Hk. rewrite !not_elem_of_cons in Hk.
  destruct Hk as (H1 & H2 & H3 & H4 & H5 & H6 & _).
  rewrite !readCluster_decode.
  unfold ReadTimestamps, readClusterDefinition, readLabels, bolt.Get, bolt.Bucket.
  by rewrite !lookup_insert_ne by done.
Qed.

End decode.

(** ** The lifecycle operations, one after the other *)

Section lifecycle.
Context {PeerDefinition : Type} `{!Collaborators PeerDefinition}.
Import strconv_facts bolt_facts.

Lemma cluster_written_shape (c : Cluster PeerDefinition) (b b' : Bkt) :
  cluster_written c b b' → entity_shape b'.
Proof.
  intros (mc & mu & dbkt & _ & _ & _ & ->).
  unfold entity_shape, bolt.Bucket, bolt.Get.
  repeat split; repeat (rewrite lookup_insert_ne by done);
    by rewrite ?lookup_insert_eq.
Qed.

Lemma GetCluster_present (s : DB) (id : string) (bkt cbkt : Bkt) :
  getClustersBucket s = Some bkt → bolt.Bucket bkt id = Some cbkt →
  GetCluster s id
  = match readCluster cbkt {| ID := id; Status := EmptyString;
                              Definition_ := {| Groups := [] |}; Labels := [];
                              CreatedAt := 0; UpdatedAt := 0 |} with
    | Err err => Err (Wrapf err "cluster %q" id)
    | Ok c => Ok c
    end.
Proof. intros Hb Hc. unfold GetCluster, db_View. by rewrite Hb, Hc. Qed.

Lemma GetCluster_absent (s : DB) (id : string) :
  (∀ bkt, getClustersBucket s = Some bkt → bolt.Bucket bkt id = None) →
  GetCluster s id = Err (Wrapf ErrNotFound "cluster %q" id).
Proof.
  intros Habs. unfold GetCluster, db_View.
  destruct (getClustersBucket s) as [bkt|]; [|done]. by rewrite (Habs bkt).
Qed.

(** The transaction of [CreateCluster] for an identifier that is
    free, when [writeCluster] succeeds. *)
Lemma CreateCluster_fresh (s : DB) now (c : Cluster PeerDefinition) (cbkt : Bkt) :
  Validate c = None → ID c ≠ EmptyString →
  (∀ bkt, getClustersBucket s = Some bkt → bkt !! ID c = None) →
  writeCluster ∅ {| ID := ID c; Status := Status c; Definition_ := Definition_ c;
                    Labels := Labels c; CreatedAt := now; UpdatedAt := now |}
  = Ok cbkt →
  ∃ s', CreateCluster s now c
        = (s', Ok {| ID := ID c; Status := Status c; Definition_ := Definition_ c;
                     Labels := Labels c; CreatedAt := now; UpdatedAt := now |}).
Proof.
  intros Hv Hid Hfree Hwrite. unfold CreateCluster. rewrite Hv.
  unfold db_Update, createClustersBucket. unfold getClustersBucket in Hfree.
  destruct (s !! bucketKeyClusters) as [bkt|] eqn:Hbkt; cbn [bind].
  - rewrite CreateBucket_ok by (done || by apply Hfree).
    rewrite Hwrite. cbn [bind]. by eexists.
  - rewrite CreateBucket_ok by done. rewrite Hwrite. cbn [bind]. by eexists.
Qed.

(** X3. [CreateCluster] succeeds whenever the identifier passes the
    format rule, is not empty and is not taken, the label sets are valid,
    the sizes are within [int] and the codecs encode the peers and the
    current time; it returns the input with both timestamps set. *)
Theorem CreateCluster_succeeds (s : DB) now (c : Cluster PeerDefinition) :
  Validate c = None → ID c ≠ EmptyString →
  (∀ bkt, getClustersBucket s = Some bkt → bkt !! ID c = None) →
  valid_labels (Labels c) → Forall valid_group (Groups (Definition_ c)) →
  is_ok (marshalTime now) →
  ∃ s', CreateCluster s now c
        = (s', Ok {| ID := ID c; Status := Status c; Definition_ := Definition_ c;
                     Labels := Labels c; CreatedAt := now; UpdatedAt := now |}).
Proof.
  intros Hv Hid Hfree Hl Hg Hnow.
  set (c' := {| ID := ID c; Status := Status c; Definition_ := Definition_ c;
                Labels := Labels c; CreatedAt := now; UpdatedAt := now |}).
  assert (is_ok (writeCluster ∅ c')) as Hw.
  { apply writeCluster_ok; [by split_and!|apply entity_shape_empty]. }
  destruct (writeCluster ∅ c') as [cbkt|] eqn:Hwrite; [|done].
  by apply (CreateCluster_fresh s now c cbkt).
Qed.

(** X4. After a [CreateCluster] that succeeded, [GetCluster] with the
    identifier returns the entity that [CreateCluster] returned, up to
    the order of the label sets. *)
Theorem CreateCluster_GetCluster `{!CodecLaws} (s s' : DB) now
    (c c' : Cluster PeerDefinition) :
  CreateCluster s now c = (s', Ok c') →
  valid_labels (Labels c) → Forall valid_group (Groups (Definition_ c)) →
  ∃ c'', GetCluster s' (ID c) = Ok c'' ∧ cluster_equiv c' c''.
Proof.
  intros (tx1 & bkt & cbkt & Hv & Hc & Hne & Hnone & -> & Hw & ->)%CreateCluster_inv
    Hl Hg.
  apply writeCluster_inv in Hw. pose proof Hw as (mc & mu & _ & Hmc & Hmu & _).
  edestruct (readCluster_written ∅ cbkt) as (c'' & Hread & Heq); [exact Hw| |].
  { simpl in Hmc, Hmu. split_and!; try done; simpl; by rewrite ?Hmc, ?Hmu. }
  exists c''. split; [|done].
  erewrite GetCluster_present;
    [|unfold getClustersBucket, tx_store; apply lookup_insert_eq
     |unfold bolt.Bucket; by rewrite lookup_insert_eq].
  by rewrite Hread.
Qed.

(** X5. After an [UpdateCluster] that succeeded, [GetCluster] returns
    the input of the update with the new updated-timestamp, up to the
    order of the label sets: the definition, the labels and the status
    stored before are gone. *)
Theorem UpdateCluster_GetCluster `{!CodecLaws} (s s' : DB) now
    (c c' : Cluster PeerDefinition) :
  UpdateCluster s now c = (s', Ok c') →
  valid_labels (Labels c) → Forall valid_group (Groups (Definition_ c)) →
  ∃ c'', GetCluster s' (ID c) = Ok c'' ∧ cluster_equiv c' c''.
Proof.
  intros (tx1 & bkt & cbkt & cbkt' & Hid & Hc & Hcbkt & -> & Hw & ->)%UpdateCluster_inv
    Hl Hg.
  apply writeCluster_inv in Hw. pose proof Hw as (mc & mu & _ & Hmc & Hmu & _).
  edestruct (readCluster_written cbkt cbkt') as (c'' & Hread & Heq); [exact Hw| |].
  { simpl in Hmc, Hmu. split_and!; try done; simpl; by rewrite ?Hmc, ?Hmu. }
  exists c''. split; [|done].
  erewrite GetCluster_present;
    [|unfold getClustersBucket, tx_store; apply lookup_insert_eq
     |unfold bolt.Bucket; by rewrite lookup_insert_eq].
  by rewrite Hread.
Qed.

(** X6. [UpdateCluster] refuses an empty identifier with an
    InvalidArgument error, and returns a NotFound error when there is no
    entity container under the identifier; in both cases the store is
    left as it was, without a clusters collection if it had none. *)
Theorem UpdateCluster_errors (s : DB) now (c : Cluster PeerDefinition) :
  (ID c = EmptyString →
     ∃ e, UpdateCluster s now c = (s, Err e) ∧ IsInvalidArgument e)
  ∧ (ID c ≠ EmptyString →
     (∀ bkt, getClustersBucket s = Some bkt → bolt.Bucket bkt (ID c) = None) →
     ∃ e, UpdateCluster s now c = (s, Err e) ∧ IsNotFound e).
Proof.
  unfold UpdateCluster. split.
  - intros Hid. rewrite bool_decide_eq_true_2 by done. by eexists.
  - intros Hid Habs. rewrite bool_decide_eq_false_2 by done.
    unfold db_Update, createClustersBucket. unfold getClustersBucket in Habs.
    destruct (s !! bucketKeyClusters) as [bkt|] eqn:Hbkt; cbn [bind].
    + rewrite (Habs bkt eq_refl). by eexists.
    + unfold bolt.Bucket. rewrite lookup_empty. by eexists.
Qed.

(** X7. An entity that [CreateCluster] or [UpdateCluster] wrote can be
    updated: [UpdateCluster] with its identifier succeeds for every
    input with valid label sets, sizes within [int] and peers and
    timestamps that the codecs encode. *)
Theorem UpdateCluster_succeeds (s : DB) now (c : Cluster PeerDefinition)
    (bkt cbkt b0 : Bkt) (c0 : Cluster PeerDefinition) :
  ID c ≠ EmptyString →
  getClustersBucket s = Some bkt → bolt.Bucket bkt (ID c) = Some cbkt →
  writeCluster b0 c0 = Ok cbkt →
  valid_labels (Labels c) → Forall valid_group (Groups (Definition_ c)) →
  is_ok (marshalTime (CreatedAt c)) → is_ok (marshalTime now) →
  ∃ s', UpdateCluster s now c
        = (s', Ok {| ID := ID c; Status := Status c; Definition_ := Definition_ c;
                     Labels := Labels c; CreatedAt := CreatedAt c; UpdatedAt := now |}).
Proof.
  intros Hid Hbkt Hcbkt Hw0 Hl Hg Hc Hnow. unfold UpdateCluster.
  rewrite bool_decide_eq_false_2 by done.
  unfold db_Update, createClustersBucket. unfold getClustersBucket in Hbkt.
  rewrite Hbkt. cbn [bind]. rewrite Hcbkt.
  set (c' := {| ID := ID c; Status := Status c; Definition_ := Definition_ c;
                Labels := Labels c; CreatedAt := CreatedAt c; UpdatedAt := now |}).
  assert (is_ok (writeCluster cbkt c')) as Hw.
  { apply writeCluster_ok; [by split_and!|].
    eapply cluster_written_shape, writeCluster_inv, Hw0. }
  destruct (writeCluster cbkt c') as [cbkt'|]; [|done]. cbn [bind]. by eexists.
Qed.

(** X8. After a [DeleteCluster] that removed an entity, a second
    [DeleteCluster] with the identifier returns a NotFound error and
    leaves the store as it is, and the identifier is free again: a
    [CreateCluster] with it succeeds for every cluster that passes the
    format rule and has valid label sets and groups, at every time the
    codec encodes. *)
Theorem DeleteCluster_twice (s s' : DB) (id : string) (bkt : Bkt) :
  getClustersBucket s = Some bkt →
  DeleteCluster s id = (s', Ok tt) →
  (∃ e, DeleteCluster s' id = (s', Err e) ∧ IsNotFound e)
  ∧ ∀ now (c : Cluster PeerDefinition),
      ID c = id → Validate c = None → ID c ≠ EmptyString →
      valid_labels (Labels c) → Forall valid_group (Groups (Definition_ c)) →
      is_ok (marshalTime now) →
      ∃ s'' c', CreateCluster s' now c = (s'', Ok c').
Proof.
  intros Hbkt. unfold DeleteCluster at 1. unfold db_Update. rewrite Hbkt.
  unfold bolt.DeleteBucket.
  destruct (bkt !! id) as [[v|m]|] eqn:Hid; simpl; try done.
  intros [= <-].
  assert (∀ bkt', getClustersBucket (tx_store s (delete id bkt)) = Some bkt' →
                  bkt' !! id = None) as Hfree.
  { unfold getClustersBucket, tx_store. rewrite lookup_insert_eq.
    intros bkt' [= <-]. apply lookup_delete_eq. }
  split.
  - unfold DeleteCluster, db_Update, bolt.DeleteBucket.
    destruct (getClustersBucket (tx_store s (delete id bkt))) as [bkt'|] eqn:Hbkt'.
    + rewrite (Hfree bkt' eq_refl). simpl. by eexists.
    + unfold getClustersBucket, tx_store in Hbkt'. by rewrite lookup_insert_eq in Hbkt'.
  - intros now c <- Hv Hne Hl Hg Hnow.
    pose proof (writeCluster_ok ∅
      {| ID := ID c; Status := Status c; Definition_ := Definition_ c;
         Labels := Labels c; CreatedAt := now; UpdatedAt := now |}) as Hw.
    destruct (writeCluster ∅ _) as [cbkt|] eqn:Hwrite;
      [|by destruct Hw; [split_and!|apply entity_shape_empty]].
    destruct (CreateCluster_fresh _ now c cbkt Hv Hne Hfree Hwrite) as (s'' & Hc).
    eauto.
Qed.

Lemma GetCluster_tx_store (s tx1 : DB) (bkt bkt' : Bkt) (id : string) :
  createClustersBucket s = Ok (tx1, bkt) →
  bolt.Bucket bkt' id = bolt.Bucket bkt id →
  GetCluster (tx_store tx1 bkt') id = GetCluster s id.
Proof.
  unfold createClustersBucket, GetCluster, db_View, getClustersBucket, tx_store.
  rewrite lookup_insert_eq. intros Hc ->.
  destruct (s !! bucketKeyClusters) as [b|]; simplify_eq; [done|].
  unfold bolt.Bucket. by rewrite lookup_empty.
Qed.

(** X9. [CreateCluster], [UpdateCluster] and [DeleteCluster] on one
    identifier leave what [GetCluster] returns for every other
    identifier as it was, whether they succeed or fail. *)
Theorem GetCluster_other_identifier (s s' : DB) now (c : Cluster PeerDefinition)
    (id id' : string) r ru rd :
  (CreateCluster s now c = (s', r) → ID c ≠ id' →
     GetCluster s' id' = GetCluster s id')
  ∧ (UpdateCluster s now c = (s', ru) → ID c ≠ id' →
     GetCluster s' id' = GetCluster s id')
  ∧ (DeleteCluster s id = (s', rd) → id ≠ id' →
     GetCluster s' id' = GetCluster s id').
Proof.
  split_and!.
  - unfold CreateCluster. destruct (Validate c); [by intros [= <- _]|].
    unfold db_Update.
    destruct (createClustersBucket s) as [[tx1 bkt]|] eqn:Hc; cbn [bind];
      [|by intros [= <- _]].
    destruct (bolt.CreateBucket bkt (ID c)) as [[bkt1 cbkt0]|e] eqn:Hcb.
    + apply CreateBucket_inv in Hcb as (_ & -> & _).
      destruct (writeCluster _ _) as [cbkt|]; cbn [bind]; [|by intros [= <- _]].
      intros [= <- _] Hne. apply (GetCluster_tx_store _ _ _ _ _ Hc).
      unfold bkt_store, bolt.Bucket. by rewrite !lookup_insert_ne.
    + case_bool_decide; by intros [= <- _].
  - unfold UpdateCluster. case_bool_decide; [by intros [= <- _]|].
    unfold db_Update.
    destruct (createClustersBucket s) as [[tx1 bkt]|] eqn:Hc; cbn [bind];
      [|by intros [= <- _]].
    destruct (bolt.Bucket bkt (ID c)) as [cbkt|]; [|by intros [= <- _]].
    destruct (writeCluster _ _) as [cbkt'|]; cbn [bind]; [|by intros [= <- _]].
    intros [= <- _] Hne. apply (GetCluster_tx_store _ _ _ _ _ Hc).
    unfold bkt_store, bolt.Bucket. by rewrite lookup_insert_ne.
  - unfold DeleteCluster, db_Update.
    destruct (getClustersBucket s) as [bkt|] eqn:Hbkt; [|by intros [= <- _]].
    destruct (bolt.DeleteBucket bkt id) as [bkt'|e] eqn:Hdel.
    + intros [= <- _] Hne.
      apply (GetCluster_tx_store s s bkt).
      * unfold createClustersBucket. unfold getClustersBucket in Hbkt. by rewrite Hbkt.
      * unfold bolt.DeleteBucket in Hdel. repeat case_match; simplify_eq.
        unfold bolt.Bucket. by rewrite lookup_delete_ne.
    + case_bool_decide; by intros [= <- _].
Qed.

Lemma GetCluster_Ok (s : DB) (bkt : Bkt) (id : string) (c : Cluster PeerDefinition) :
  getClustersBucket s = Some bkt →
  GetCluster s id = Ok c
  ↔ ∃ cbkt, bolt.Bucket bkt id = Some cbkt
            ∧ readCluster cbkt {| ID := id; Status := EmptyString;
                                  Definition_ := {| Groups := [] |}; Labels := [];
                                  CreatedAt := 0; UpdatedAt := 0 |} = Ok c.
Proof.
  intros Hbkt. unfold GetCluster, db_View. rewrite Hbkt.
  destruct (bolt.Bucket bkt id) as [cbkt|]; [|split; [done|by intros (? & ? & _)]].
  destruct (readCluster cbkt _) as [c'|e] eqn:Hr.
  - split; [intros [= <-]; eauto|]. intros (? & [= <-] & Hr'). congruence.
  - split; [done|]. intros (? & [= <-] & Hr'). congruence.
Qed.

Lemma list_entries_GetCluster (s : DB) (bkt : Bkt) es :
  getClustersBucket s = Some bkt →
  ∀ (acc cs : list (Cluster PeerDefinition)),
    bolt.for_each es (list_entry bkt) acc = Ok cs
    ↔ ∃ cs', cs = (acc ++ cs')%list
             ∧ Forall2 (λ k c, GetCluster s k = Ok c) es.*1 cs'.
Proof.
  intros Hbkt. induction es as [|[k v] es IH]; intros acc cs; simpl.
  - split.
    + intros [= <-]. exists []. by rewrite app_nil_r.
    + intros (cs' & -> & ->%Forall2_nil_inv_l). by rewrite app_nil_r.
  - unfold list_entry at 1.
    destruct (bolt.Bucket bkt k) as [cbkt|] eqn:Hk.
    + destruct (readCluster cbkt _) as [c|e] eqn:Hr; cbn [bind].
      * rewrite IH. split.
        -- intros (cs' & -> & Hall). exists (c :: cs'). rewrite <- app_assoc.
           split; [done|]. constructor; [|done].
           apply (GetCluster_Ok _ _ _ _ Hbkt). eauto.
        -- intros (cs' & -> & Hall).
           apply Forall2_cons_inv_l in Hall as (c' & cs'' & Hget & Hall & ->).
           apply (GetCluster_Ok _ _ _ _ Hbkt) in Hget as (cbkt' & Hk' & Hr').
           assert (c' = c) as -> by congruence.
           exists cs''. by rewrite <- app_assoc.
      * split; [done|]. intros (cs' & -> & Hall).
        apply Forall2_cons_inv_l in Hall as (c' & cs'' & Hget & Hall & ->).
        apply (GetCluster_Ok _ _ _ _ Hbkt) in Hget as (cbkt' & Hk' & Hr').
        congruence.
    + split; [done|]. intros (cs' & -> & Hall).
      apply Forall2_cons_inv_l in Hall as (c' & cs'' & Hget & Hall & ->).
      apply (GetCluster_Ok _ _ _ _ Hbkt) in Hget as (cbkt' & Hk' & Hr').
      congruence.
Qed.

(** X10. [ListClusters] returns a list exactly when [GetCluster]
    succeeds for every key of the clusters collection, and the list is
    then what [GetCluster] returns for these keys, in the order of the
    cursor; without a clusters collection it returns the empty list. *)
Theorem ListClusters_GetCluster (s : DB) (cs : list (Cluster PeerDefinition)) :
  (∀ bkt, getClustersBucket s = Some bkt →
     ListClusters s = Ok cs
     ↔ Forall2 (λ k c, GetCluster s k = Ok c) (bolt.cursor bkt).*1 cs)
  ∧ (getClustersBucket s = None → ListClusters s = Ok []).
Proof.
  unfold ListClusters, db_View. split.
  - intros bkt Hbkt. rewrite Hbkt. unfold bolt.ForEach.
    rewrite (list_entries_GetCluster s bkt _ Hbkt). split.
    + by intros (cs' & -> & Hall).
    + intros Hall. by exists cs.
  - by intros ->.
Qed.

End lifecycle.

(** ** The size of a definition *)

Section size.
Context {PeerDefinition : Type}.

Lemma wrap64_add_l (a b : Z) :
  strconv.wrap64 (strconv.wrap64 a + b) = strconv.wrap64 (a + b).
Proof.
  unfold strconv.wrap64.
  replace ((a + 2 ^ 63) mod 2 ^ 64 - 2 ^ 63 + b + 2 ^ 63)
    with ((a + 2 ^ 63) mod 2 ^ 64 + b) by ring.
  rewrite Z.add_mod_idemp_l by done. f_equal. f_equal. ring.
Qed.

Lemma wrap64_in_int64 (z : Z) : strconv.in_int64 z → strconv.wrap64 z = z.
Proof.
  unfold strconv.in_int64, strconv.wrap64. intros Hz.
  change (2 ^ 63) with 9223372036854775808 in *.
  change (2 ^ 64) with 18446744073709551616.
  rewrite Z.mod_small; lia.
Qed.

Lemma Size_loop (gs : list (ClusterGroup PeerDefinition)) (a : Z) :
  foldl (λ sum g, strconv.wrap64 (sum + Size g)) (strconv.wrap64 a) gs
  = strconv.wrap64 (a + foldr Z.add 0 (Size <$> gs)).
Proof.
  revert a. induction gs as [|g gs IH]; intros a; cbn [foldl foldr fmap list_fmap].
  - f_equal. ring.
  - rewrite wrap64_add_l, IH. f_equal. ring.
Qed.

(** X11. [Size] is the sum of the sizes of the groups in [int]
    arithmetic: the sum modulo [2^64] read as a signed number, whatever
    the order of the wrap-arounds on the way; it is the sum itself when
    the sum is within [int], also when a partial sum is not. *)
Theorem ClusterDefinition_Size_sum (d : ClusterDefinition PeerDefinition) :
  ClusterDefinition_Size d = strconv.wrap64 (foldr Z.add 0 (Size <$> Groups d))
  ∧ (strconv.in_int64 (foldr Z.add 0 (Size <$> Groups d)) →
     ClusterDefinition_Size d = foldr Z.add 0 (Size <$> Groups d)).
Proof.
  assert (ClusterDefinition_Size d
          = strconv.wrap64 (foldr Z.add 0 (Size <$> Groups d))) as Heq.
  { unfold ClusterDefinition_Size.
    change 0 with (strconv.wrap64 0) at 1. by rewrite Size_loop. }
  split; [done|]. intros Hin. by rewrite Heq, wrap64_in_int64.
Qed.
End size.

(** ** The groups of a stored definition *)

Section groups.
Context {PeerDefinition : Type} `{!Collaborators PeerDefinition}.
Import strconv_facts bolt_facts.

Lemma writeClusterGroup_inv (dbkt dbkt' : Bkt) (i : nat)
    (g : ClusterGroup PeerDefinition) :
  writeClusterGroup dbkt i g = Ok dbkt' →
  dbkt !! strconv.Itoa (Z.of_nat i) = None
  ∧ ∃ gb, dbkt' = <[strconv.Itoa (Z.of_nat i) := Sub gb]> dbkt.
Proof.
  unfold writeClusterGroup.
  destruct (bolt.CreateBucket dbkt _) as [[dbkt1 gbkt]|] eqn:Hcb; cbn [bind]; [|done].
  apply CreateBucket_inv in Hcb as (Hnone & -> & ->).
  destruct (writeLabels ∅ _) as [gbkt1|]; cbn [bind]; [|done].
  destruct (match Peer g with Some _ => _ | None => _ end) as [gbkt2|];
    cbn [bind]; [|done].
  destruct (put_fields gbkt2 _) as [gbkt3|]; cbn [bind]; [|done].
  intros [= <-]. split; [done|]. exists gbkt3.
  unfold bkt_store. by rewrite insert_insert_eq.
Qed.

Lemma writeGroups_inv (gs : list (ClusterGroup PeerDefinition)) :
  ∀ (dbkt dbkt' : Bkt) (i : nat),
    writeGroups dbkt i gs = Ok dbkt' →
    (∀ k, (k < length gs)%nat →
       is_Some (bolt.Bucket dbkt' (strconv.Itoa (Z.of_nat (i + k)))))
    ∧ (∀ key, (∀ k, (k < length gs)%nat → key ≠ strconv.Itoa (Z.of_nat (i + k))) →
         dbkt' !! key = dbkt !! key).
Proof.
  induction gs as [|g gs IH]; intros dbkt dbkt' i; simpl.
  - intros [= <-]. split; [lia|done].
  - destruct (writeClusterGroup dbkt i g) as [dbkt1|] eqn:Hg; cbn [bind]; [|done].
    apply writeClusterGroup_inv in Hg as (Hnone & gb & ->).
    intros [Hsub Hframe]%IH. split.
    + intros [|k] Hk.
      * unfold bolt.Bucket. rewrite Nat.add_0_r, Hframe, lookup_insert_eq; [done|].
        intros k _ Heq%Itoa_nat_inj. lia.
      * replace (i + S k)%nat with (S i + k)%nat by lia. apply Hsub. lia.
    + intros key Hkey. rewrite Hframe, lookup_insert_ne; [done| |].
      * intros <-. apply (Hkey 0%nat); [lia|]. by rewrite Nat.add_0_r.
      * intros k Hk. replace (S i + k)%nat with (i + S k)%nat by lia.
        apply Hkey. lia.
Qed.

(** X12. After [writeClusterDefinition] the "definition" container
    holds one group container under each of the decimal keys 0 ..
    [n - 1], [n] the number of groups written, and nothing else,
    whatever it held before: no group of an earlier, longer definition
    is left behind. *)
Theorem writeClusterDefinition_keys (b b' : Bkt)
    (cdef : ClusterDefinition PeerDefinition) :
  writeClusterDefinition b cdef = Ok b' →
  ∃ dbkt,
    bolt.Bucket b' bucketKeyDefinition = Some dbkt
    ∧ (∀ key, is_Some (dbkt !! key)
              ↔ ∃ k, (k < length (Groups cdef))%nat
                     ∧ key = strconv.Itoa (Z.of_nat k))
    ∧ (∀ key, is_Some (dbkt !! key) → is_Some (bolt.Bucket dbkt key))
    ∧ size dbkt = length (Groups cdef).
Proof.
  intros (dbkt & [Hsub Hframe]%writeGroups_inv & ->)%writeClusterDefinition_inv.
  exists dbkt. simpl in Hsub, Hframe.
  set (keys := (λ k, strconv.Itoa (Z.of_nat k)) <$> seq 0 (length (Groups cdef))).
  assert (∀ key, key ∈ keys
                 ↔ ∃ k, (k < length (Groups cdef))%nat
                        ∧ key = strconv.Itoa (Z.of_nat k)) as Hkeys.
  { intros key. unfold keys. rewrite list_elem_of_fmap. split.
    - intros (k & -> & Hk%elem_of_seq). exists k. split; [lia|done].
    - intros (k & Hk & ->). exists k. split; [done|]. apply elem_of_seq. lia. }
  assert (∀ key, is_Some (dbkt !! key) ↔ key ∈ keys) as Hdom.
  { intros key. split.
    - intros Hsome. destruct (decide (key ∈ keys)) as [|Hnot]; [done|].
      rewrite Hframe, lookup_empty in Hsome; [by destruct Hsome|].
      intros k Hk ->. apply Hnot, Hkeys. eauto.
    - intros (k & Hk & ->)%Hkeys. specialize (Hsub k Hk).
      unfold bolt.Bucket in Hsub. destruct (dbkt !! _); [done|by destruct Hsub]. }
  split_and!.
  - unfold bolt.Bucket. by rewrite lookup_insert_eq.
  - intros key. by rewrite Hdom, Hkeys.
  - intros key (k & Hk & ->)%Hdom%Hkeys. by apply Hsub.
  - rewrite <- size_dom.
    assert (dom dbkt = list_to_set keys) as ->.
    { apply set_eq. intros key. by rewrite elem_of_dom, elem_of_list_to_set. }
    rewrite size_list_to_set; [unfold keys; by rewrite length_fmap, length_seq|].
    unfold keys. apply NoDup_fmap_2; [|apply NoDup_seq].
    intros j k. apply Itoa_nat_inj.
Qed.

Lemma readGroups_inv (dbkt : Bkt) :
  ∀ (fuel i : nat) (acc gs : list (ClusterGroup PeerDefinition)),
    readGroups fuel dbkt i acc = Some (Ok gs) →
    ∃ gs', gs = (acc ++ gs')%list
           ∧ (∀ k g, gs' !! k = Some g →
                ∃ gb, bolt.Bucket dbkt (strconv.Itoa (Z.of_nat (i + k))) = Some gb
                      ∧ readClusterGroup gb = Ok g)
           ∧ bolt.Bucket dbkt (strconv.Itoa (Z.of_nat (i + length gs'))) = None.
Proof.
  induction fuel as [|fuel IH]; intros i acc gs; simpl;
    destruct (bolt.Bucket dbkt (strconv.Itoa (Z.of_nat i))) as [gbkt|] eqn:Hi;
    try done.
  - intros [= <-]. exists []. rewrite app_nil_r, Nat.add_0_r. by split_and!.
  - destruct (readClusterGroup gbkt) as [g|] eqn:Hg; [|done].
    intros (gs' & -> & Hrun & Hend)%IH. exists (g :: gs').
    rewrite <- app_assoc. split_and!; [done| |].
    + intros [|k] g' Hk; simpl in Hk.
      * injection Hk as <-. rewrite Nat.add_0_r. eauto.
      * replace (i + S k)%nat with (S i + k)%nat by lia. by apply Hrun.
    + simpl. by replace (i + S (length gs'))%nat with (S i + length gs')%nat by lia.
  - intros [= <-]. exists []. rewrite app_nil_r, Nat.add_0_r. by split_and!.
Qed.

(** X13. [readClusterDefinition] returns the groups [gs] exactly when
    the "definition" container holds, under the decimal keys 0 ..
    [length gs - 1], group containers that decode to the groups of [gs]
    in this order, and no container under the key [length gs]: the probe
    loop always reaches its end, and a decode that succeeded returned
    nothing but this dense run. *)
Theorem readClusterDefinition_dense_run (bkt dbkt : Bkt)
    (gs : list (ClusterGroup PeerDefinition)) :
  bolt.Bucket bkt bucketKeyDefinition = Some dbkt →
  readClusterDefinition bkt = Ok {| Groups := gs |}
  ↔ (∀ k g, gs !! k = Some g →
       ∃ gb, bolt.Bucket dbkt (strconv.Itoa (Z.of_nat k)) = Some gb
             ∧ readClusterGroup gb = Ok g)
    ∧ bolt.Bucket dbkt (strconv.Itoa (Z.of_nat (length gs))) = None.
Proof.
  intros Hd. split.
  - unfold readClusterDefinition. rewrite Hd.
    pose proof (readClusterDefinition_fuel dbkt) as Hfuel.
    destruct (readGroups (size dbkt) dbkt 0 []) as [[gs'|e]|] eqn:Hrun; try done.
    intros [= <-]. by apply readGroups_inv in Hrun as (gs'' & -> & Hrun & Hend).
  - intros [Hrun Hend].
    destruct (readClusterDefinition_dense eq bkt dbkt gs Hd) as (gs' & -> & Hall);
      [|done|].
    + intros k g Hk. destruct (Hrun k g Hk) as (gb & Hgb & Hread). by exists gb, g.
    + apply list_eq_Forall2 in Hall. by subst.
Qed.

End groups.

(** ** Labelling a stored entity *)

Section labelling.
Context {PeerDefinition : Type} `{!Collaborators PeerDefinition}.
Import strconv_facts bolt_facts.

Lemma valid_group_equiv (g g' : ClusterGroup PeerDefinition) :
  group_equiv g g' → valid_group g → valid_group g'.
Proof.
  intros (Hs & _ & _ & Hp & Hl) (Hsize & [Hnd Hne] & Hpeer).
  unfold valid_group, valid_labels. split_and!.
  - by rewrite <- Hs.
  - by rewrite <- Hl.
  - by rewrite <- Hl.
  - by rewrite <- Hp.
Qed.

(** X14. The callback of [LabelClusters], run on the container of an
    entity that [writeCluster] wrote, succeeds when the new label set is
    valid and the codec encodes the current time.  The cluster it
    appends to the result has the stored identifier, status, definition
    and created-timestamp, the labels it was given and the current
    time as updated-timestamp, and [readCluster] returns this cluster
    from the container afterwards, up to the order of the label sets. *)
Theorem label_entry_relabels `{!CodecLaws} (now : nat → Time) (id : string)
    (labels : list string) (clusters : list (Cluster PeerDefinition))
    (ibkt b0 : Bkt) (c c0 : Cluster PeerDefinition) :
  writeCluster b0 c = Ok ibkt →
  valid_labels (Labels c) → Forall valid_group (Groups (Definition_ c)) →
  valid_labels labels → is_ok (marshalTime (now (length clusters))) →
  ∃ ibkt' c',
    label_entry now ibkt id labels clusters = Ok (ibkt', (clusters ++ [c'])%list)
    ∧ ID c' = ID c ∧ Status c' = Status c
    ∧ Forall2 group_equiv (Groups (Definition_ c)) (Groups (Definition_ c'))
    ∧ Labels c' = labels
    ∧ CreatedAt c' = CreatedAt c ∧ UpdatedAt c' = now (length clusters)
    ∧ ∃ c'', readCluster ibkt' c0 = Ok c'' ∧ cluster_equiv c' c''.
Proof.
  intros Hw0 Hl Hg Hlabels Hnow.
  apply writeCluster_inv in Hw0.
  pose proof (cluster_written_shape _ _ _ Hw0) as Hshape.
  pose proof Hw0 as (mc & mu & dbkt & Hmc & Hmu & Hd & Hc).
  assert (valid_cluster c) as Hvalid.
  { split_and!; try done; by rewrite ?Hmc, ?Hmu. }
  destruct (readCluster_written b0 ibkt c
              {| ID := id; Status := EmptyString; Definition_ := {| Groups := [] |};
                 Labels := []; CreatedAt := 0; UpdatedAt := 0 |} Hw0 Hvalid)
    as (c1 & Hread & Hid & Hst & Hgs & Hls & Hcr & Hup).
  set (c2 := {| ID := ID c1; Status := Status c1; Definition_ := Definition_ c1;
                Labels := labels;
                CreatedAt := CreatedAt c1; UpdatedAt := now (length clusters) |}).
  assert (valid_cluster c2) as Hvalid2.
  { unfold valid_cluster. split_and!; simpl.
    - done.
    - clear -Hgs Hg. induction Hgs as [|g g' gs gs' Hgg' _ IH]; [done|].
      apply Forall_cons in Hg as [Hg Hgs].
      apply Forall_cons_2; [by eapply valid_group_equiv|by apply IH].
    - by rewrite <- Hcr, Hmc.
    - done. }
  pose proof (writeCluster_ok ibkt c2 Hvalid2 Hshape) as Hok.
  destruct (writeCluster ibkt c2) as [ibkt'|] eqn:Hw; [|done].
  pose proof (writeCluster_inv _ _ _ Hw) as Hw'.
  destruct (readCluster_written ibkt ibkt' c2 c0 Hw' Hvalid2) as (c'' & Hread' & Heq).
  exists ibkt', c2. split_and!; try done.
  - unfold label_entry. rewrite Hread. cbn [bind]. fold c2. by rewrite Hw.
  - by exists c''.
Qed.

End labelling.

(** ** When [writeCluster] succeeds, and what it leaves *)

Section overwrite.
Context {PeerDefinition : Type} `{!Collaborators PeerDefinition}.
Import strconv_facts bolt_facts.

Lemma Put_shape (b b' : Bkt) key value :
  bolt.Put b key value = Ok b' → key ≠ EmptyString ∧ bolt.Bucket b key = None.
Proof.
  unfold bolt.Put, bolt.Bucket. case_bool_decide; [done|].
  by destruct (b !! key) as [[]|].
Qed.

Lemma RecreateBucket_shape (b : Bkt) key r :
  RecreateBucket b key = Ok r → bolt.Get b key = None.
Proof.
  unfold RecreateBucket, bolt.Bucket, bolt.Get, bolt.CreateBucket.
  destruct (b !! key) as [[v|m]|] eqn:Hkey; cbn [bind]; try done.
  case_bool_decide; [done|]. by rewrite Hkey.
Qed.

Lemma put_labels_shape (labels : list string) : ∀ (b b' : Bkt),
  put_fields b ((λ l, (l, EmptyString)) <$> labels) = Ok b' → EmptyString ∉ labels.
Proof.
  induction labels as [|l labels IH]; intros b b'; simpl.
  - intros _. apply not_elem_of_nil.
  - destruct (bolt.Put b l _) as [b1|] eqn:Hput; cbn [bind]; [|done].
    apply Put_shape in Hput as [Hl _]. intros Hne%IH.
    rewrite elem_of_cons. intros [?|?]; by simplify_eq.
Qed.

Lemma writeLabels_shape (b b' : Bkt) labels :
  writeLabels b labels = Ok b' →
  bolt.Get b bucketKeyLabels = None ∧ EmptyString ∉ labels.
Proof.
  unfold writeLabels.
  destruct (RecreateBucket b bucketKeyLabels) as [[b1 lb]|] eqn:Hre; cbn [bind]; [|done].
  apply RecreateBucket_shape in Hre as Hget.
  destruct (put_fields lb _) as [lb'|] eqn:Hput; cbn [bind]; [|done].
  intros _. split; [done|]. by eapply put_labels_shape.
Qed.

Lemma writeCluster_shape (b b' : Bkt) (c : Cluster PeerDefinition) :
  writeCluster b c = Ok b' → entity_shape b ∧ EmptyString ∉ Labels c.
Proof.
  unfold writeCluster, WriteTimestamps.
  destruct (marshalTime (CreatedAt c)) as [mc|]; cbn [bind]; [|done].
  destruct (marshalTime (UpdatedAt c)) as [mu|]; cbn [bind]; [|done].
  cbn [put_fields].
  destruct (bolt.Put b bucketKeyCreatedAt mc) as [b1|] eqn:H1; cbn [bind]; [|done].
  apply Put_shape in H1 as H1'. apply Put_inv in H1 as ->.
  destruct (bolt.Put _ bucketKeyUpdatedAt mu) as [b2|] eqn:H2; cbn [bind]; [|done].
  apply Put_shape in H2 as H2'. apply Put_inv in H2 as ->.
  destruct (writeClusterDefinition _ _) as [b3|] eqn:H3; cbn [bind]; [|done].
  assert (bolt.Get
            (<[bucketKeyUpdatedAt := Val mu]> (<[bucketKeyCreatedAt := Val mc]> b))
            bucketKeyDefinition = None) as H3'.
  { revert H3. unfold writeClusterDefinition.
    destruct (RecreateBucket _ _) as [r|] eqn:Hre; cbn [bind]; [|done].
    intros _. by eapply RecreateBucket_shape. }
  apply writeClusterDefinition_inv in H3 as (dbkt & _ & ->).
  destruct (writeLabels _ _) as [b4|] eqn:H4; cbn [bind]; [|done].
  apply writeLabels_shape in H4 as H4'. apply writeLabels_inv in H4 as ->.
  destruct (bolt.Put _ bucketKeyID _) as [b5|] eqn:H5; cbn [bind]; [|done].
  apply Put_shape in H5 as H5'. apply Put_inv in H5 as ->.
  destruct (bolt.Put _ bucketKeyStatus _) as [b6|] eqn:H6; cbn [bind]; [|done].
  apply Put_shape in H6 as H6'. intros _.
  destruct H1' as [_ H1'], H2' as [_ H2'], H4' as [H4' Hne], H5' as [_ H5'],
    H6' as [_ H6'].
  unfold entity_shape, bolt.Bucket, bolt.Get in *.
  repeat (rewrite lookup_insert_ne in H2' by done).
  repeat (rewrite lookup_insert_ne in H3' by done).
  repeat (rewrite lookup_insert_ne in H4' by done).
  repeat (rewrite lookup_insert_ne in H5' by done).
  repeat (rewrite lookup_insert_ne in H6' by done).
  by split_and!.
Qed.

(** [writeCluster] succeeds exactly when the container holds no
    nested container under the keys of the timestamps, the identifier
    and the status and no flat value under the keys of the definition
    and the labels, the codec encodes both timestamps, the groups can be
    written into an empty container, and no label is the empty string;
    the result is then the container with these six entries set, and
    its other entries as they were. *)
Lemma writeCluster_succeeds_iff (b b' : Bkt) (c : Cluster PeerDefinition) :
  writeCluster b c = Ok b'
  ↔ entity_shape b ∧ (EmptyString ∉ Labels c) ∧ cluster_written c b b'.
Proof.
  split.
  - intros Hw. destruct (writeCluster_shape _ _ _ Hw) as [Hshape Hne].
    split_and!; [done..|]. by apply writeCluster_inv.
  - intros ((S1 & S2 & S3 & S4 & S5 & S6) & Hne & mc & mu & dbkt & Hmc & Hmu & Hd & ->).
    unfold writeCluster, WriteTimestamps. rewrite Hmc, Hmu. cbn [bind].
    rewrite put_fields_ok by (by repeat (apply Forall_cons; split; [by split|])).
    cbn [bind puts]. unfold writeClusterDefinition.
    unfold bolt.Bucket, bolt.Get in *.
    rewrite RecreateBucket_ok;
      [|done|unfold bolt.Get; by repeat (rewrite lookup_insert_ne by done)].
    cbn [bind]. rewrite Hd. cbn [bind]. unfold bkt_store. rewrite insert_insert_eq.
    rewrite writeLabels_ok;
      [|unfold bolt.Get; by repeat (rewrite lookup_insert_ne by done)|done].
    cbn [bind]. rewrite put_fields_ok; [done|].
    repeat (apply Forall_cons; split; [split; [done|]|]); try apply Forall_nil_2;
      unfold bolt.Bucket; simpl; by repeat (rewrite lookup_insert_ne by done).
Qed.

(** X15. Writing a cluster into a container that [writeCluster] wrote
    before gives the container that writing it in place of the earlier
    cluster would have given: nothing of the earlier cluster, no group,
    label or field, is left. *)
Theorem writeCluster_replaces (b b1 b2 : Bkt) (c c' : Cluster PeerDefinition) :
  writeCluster b c = Ok b1 → writeCluster b1 c' = Ok b2 →
  writeCluster b c' = Ok b2.
Proof.
  intros (Hshape & _ & mc & mu & dbkt & _ & _ & _ & ->)%writeCluster_succeeds_iff
    (_ & Hne & mc' & mu' & dbkt' & Hmc & Hmu & Hd & ->)%writeCluster_succeeds_iff.
  apply writeCluster_succeeds_iff. split_and!; [done..|].
  exists mc', mu', dbkt'. split_and!; [done..|].
  apply map_eq. intros k.
  destruct (decide (k = bucketKeyStatus)) as [->|];
    [by rewrite !lookup_insert_eq|rewrite !(lookup_insert_ne _ bucketKeyStatus) by done].
  destruct (decide (k = bucketKeyID)) as [->|];
    [by rewrite !lookup_insert_eq|rewrite !(lookup_insert_ne _ bucketKeyID) by done].
  destruct (decide (k = bucketKeyLabels)) as [->|];
    [by rewrite !lookup_insert_eq|rewrite !(lookup_insert_ne _ bucketKeyLabels) by done].
  destruct (decide (k = bucketKeyDefinition)) as [->|];
    [by rewrite !lookup_insert_eq
    |rewrite !(lookup_insert_ne _ bucketKeyDefinition) by done].
  destruct (decide (k = bucketKeyUpdatedAt)) as [->|];
    [by rewrite !lookup_insert_eq
    |rewrite !(lookup_insert_ne _ bucketKeyUpdatedAt) by done].
  destruct (decide (k = bucketKeyCreatedAt)) as [->|];
    [by rewrite !lookup_insert_eq
    |by repeat (rewrite lookup_insert_ne by done)].
Qed.

End overwrite.

(** ** The claims on the sample values *)

Lemma sample_valid : @valid_cluster _ Sample.collaborators Sample.cluster1.
Proof.
  split; [|split; [|split]].
  - split; apply (bool_decide_unpack _); by vm_compute.
  - apply Forall_cons_2; [|apply Forall_cons_2; [|apply Forall_nil_2]].
    + split; [unfold strconv.in_int64; simpl; lia|split].
      * split; apply (bool_decide_unpack _); by vm_compute.
      * intros pdef _. exact I.
    + split; [unfold strconv.in_int64; simpl; lia|split].
      * split; apply (bool_decide_unpack _); by vm_compute.
      * intros pdef _. exact I.
  - exact I.
  - exact I.
Defined.

Lemma writeCluster_readCluster_roundtrip_witness :
  ∃ bkt c', @writeCluster _ Sample.collaborators ∅ Sample.cluster1 = Ok bkt
            ∧ @readCluster _ Sample.collaborators bkt zeroCluster = Ok c'
            ∧ cluster_equiv Sample.cluster1 c'.
Proof.
  exact (@writeCluster_readCluster_roundtrip _ Sample.collaborators sample_laws
           Sample.cluster1 zeroCluster sample_valid).
Defined.

Lemma CreateCluster_twice_witness :
  ∃ e, @CreateCluster _ Sample.collaborators Sample.store1 200 Sample.update1
       = (Sample.store1, Err e) ∧ IsAlreadyExists e.
Proof.
  apply (@CreateCluster_twice _ Sample.collaborators ∅ Sample.store1 100 200
           Sample.cluster1 Sample.created1 Sample.update1).
  - vm_compute. reflexivity.
  - reflexivity.
Defined.

Lemma readClusterDefinition_edge_cases_witness :
  @readClusterDefinition _ Sample.collaborators ∅ = Ok {| Groups := [] |}
  ∧ @readClusterDefinition _ Sample.collaborators Sample.gapped
    = Ok {| Groups := [Sample.decoded_group] |}
  ∧ ∃ g, @readClusterGroup _ Sample.collaborators Sample.group_bkt = Ok g ∧ Peer g = None.
Proof.
  destruct (@readClusterDefinition_edge_cases _ Sample.collaborators) as (Ha & Hb & Hc).
  split; [|split].
  - apply Ha. reflexivity.
  - apply (Hb Sample.gapped Sample.gapped_groups [Sample.decoded_group]).
    + vm_compute. reflexivity.
    + intros [|k] g Hk; [|discriminate Hk]. injection Hk as <-.
      exists Sample.group_bkt. split; vm_compute; reflexivity.
    + vm_compute. reflexivity.
  - apply Hc.
    + vm_compute. reflexivity.
    + intros n Hn. vm_compute in Hn. injection Hn as <-. exact I.
Defined.

Lemma UpdateCluster_persists_input_witness :
  Sample.updated1
  = {| ID := "c1"; Status := "created";
       Definition_ := {| Groups := [Sample.group1] |};
       Labels := ["green"]; CreatedAt := 7; UpdatedAt := 200 |}
  ∧ ∃ bkt cbkt,
      getClustersBucket Sample.store2 = Some bkt
      ∧ bolt.Bucket bkt "c1" = Some cbkt
      ∧ bolt.Get cbkt bucketKeyID = Some "c1"
      ∧ ∀ t1 t2, @ReadTimestamps _ Sample.collaborators cbkt t1 t2 = Ok (7, 200).
Proof.
  apply (@UpdateCluster_persists_input _ Sample.collaborators sample_laws
           Sample.store1 Sample.store2 200 Sample.update1 Sample.updated1).
  vm_compute. reflexivity.
Defined.

Lemma GenerateLabels_occurrences_witness :
  (∀ g, g ∈ Groups Sample.overlap → Region g ∈ ["x"; "x"] ∧ InstanceType g ∈ ["x"; "x"])
  ∧ (∀ x, x ∈ ["x"; "x"] →
          x ∈ Region <$> Groups Sample.overlap ∨ x ∈ InstanceType <$> Groups Sample.overlap)
  ∧ (∀ x, count_occ string_dec ["x"; "x"] x
          = ((if decide (x ∈ Region <$> Groups Sample.overlap) then 1 else 0)
             + (if decide (x ∈ InstanceType <$> Groups Sample.overlap) then 1 else 0))%nat).
Proof.
  apply (GenerateLabels_occurrences Sample.overlap ["x"; "x"]).
  exists ["x"], ["x"]. split; [|split]; vm_compute; reflexivity.
Defined.

Lemma readCluster_bad_size_witness :
  ∃ e, @readCluster _ Sample.collaborators Sample.bad_size zeroCluster = Err e
       ∧ (is_ok (@ReadTimestamps _ Sample.collaborators Sample.bad_size 0 0) →
          (∀ k gb, (k < 0)%nat →
             bolt.Bucket Sample.bad_groups (strconv.Itoa (Z.of_nat k)) = Some gb →
             is_ok (@readClusterGroup _ Sample.collaborators gb)) →
          bolt.Bucket Sample.bad_group bucketKeyDefinition = None
          ∨ is_ok (@readPeerDefinition _ Sample.collaborators Sample.bad_group) →
          IsFormatError e ∧ ∃ k, e = NumError "Atoi" "3x" k).
Proof.
  apply (@readCluster_bad_size _ Sample.collaborators
           Sample.bad_size Sample.bad_groups Sample.bad_group 0 "3x" zeroCluster).
  - vm_compute. reflexivity.
  - intros k Hk. lia.
  - vm_compute. reflexivity.
  - vm_compute. reflexivity.
  - reflexivity.
Defined.

Lemma LabelClusters_all_or_nothing_witness :
  ∃ e, @LabelClusters _ Sample.collaborators Sample.store1 (λ _, 300)
         ["c1"; "c2"] ["dev"] ["prod"]
       = (Sample.store1, Err e) ∧ IsNotFound e.
Proof.
  apply (@LabelClusters_all_or_nothing _ Sample.collaborators Sample.store1
           (λ _, 300) ["c1"; "c2"] ["dev"] ["prod"] "c2").
  - apply list_elem_of_further, list_elem_of_here.
  - intros bkt Hbkt. vm_compute in Hbkt. injection Hbkt as <-.
    vm_compute. reflexivity.
Defined.

Lemma DeleteCluster_cases_witness :
  (∃ e, @DeleteCluster Sample.store1 "c2" = (Sample.store1, Err e) ∧ IsNotFound e)
  ∧ DeleteCluster ∅ "c1" = (∅, Ok tt)
  ∧ ∃ e, @GetCluster _ Sample.collaborators
           (DeleteCluster Sample.store1 "c1").1 "c1" = Err e ∧ IsNotFound e.
Proof.
  split; [|split].
  - destruct (@DeleteCluster_cases _ Sample.collaborators Sample.store1 "c2") as (Ha & _ & _).
    eapply Ha; vm_compute; reflexivity.
  - destruct (@DeleteCluster_cases _ Sample.collaborators ∅ "c1") as (_ & Hb & _).
    apply Hb. reflexivity.
  - destruct (@DeleteCluster_cases _ Sample.collaborators Sample.store1 "c1") as (_ & _ & Hc).
    apply Hc. vm_compute. reflexivity.
Defined.

Lemma CreateCluster_timestamps_witness :
  @Validate _ Sample.collaborators Sample.cluster1 = None
  ∧ Sample.created1 = {| ID := "c1"; Status := "creating";
                  Definition_ := {| Groups := [Sample.group0; Sample.group1] |};
                  Labels := ["prod"; "blue"]; CreatedAt := 100; UpdatedAt := 100 |}
  ∧ ∃ bkt cbkt,
      getClustersBucket Sample.store1 = Some bkt
      ∧ bolt.Bucket bkt "c1" = Some cbkt
      ∧ ∀ t1 t2, @ReadTimestamps _ Sample.collaborators cbkt t1 t2 = Ok (100, 100).
Proof.
  apply (@CreateCluster_timestamps _ Sample.collaborators sample_laws
           ∅ Sample.store1 100 Sample.cluster1 Sample.created1).
  vm_compute. reflexivity.
Defined.

Lemma decoded_ID_is_stored_field_witness :
  (∃ c, @GetCluster _ Sample.collaborators Sample.store1 "c1" = Ok c ∧ ID c = "c1")
  ∧ (∃ b, @writeCluster _ Sample.collaborators ∅ Sample.cluster1 = Ok b
          ∧ bolt.Get b bucketKeyID = Some "c1").
Proof.
  destruct (@decoded_ID_is_stored_field _ Sample.collaborators) as (Hget & _ & Hwrite).
  split.
  - exists Sample.stored1. split; [vm_compute; reflexivity|].
    eapply (Hget Sample.store1 "c1"); vm_compute; reflexivity.
  - destruct (@writeCluster _ Sample.collaborators ∅ Sample.cluster1) as [b|] eqn:Hw;
      [|vm_compute in Hw; discriminate Hw].
    exists b. split; [done|]. by apply (Hwrite ∅ b Sample.cluster1).
Defined.

(** C4 as stated fails: the created-timestamp that is persisted after
    [UpdateCluster] is the one of the input, 7, not the committed 100. *)
Lemma UpdateCluster_overwrites_created :
  ¬ (∀ (s s' : DB) (now : Time) (c c' old new : Cluster string),
       ID c ≠ EmptyString →
       @GetCluster _ Sample.collaborators s (ID c) = Ok old →
       @UpdateCluster _ Sample.collaborators s now c = (s', Ok c') →
       @GetCluster _ Sample.collaborators s' (ID c) = Ok new →
       ID new = ID old ∧ CreatedAt new = CreatedAt old ∧ UpdatedAt old <= UpdatedAt new).
Proof.
  intros Hclaim.
  destruct (Hclaim Sample.store1 Sample.store2 200 Sample.update1
              Sample.updated1 Sample.stored1 Sample.updated1)
    as (_ & Hcreated & _).
  - done.
  - vm_compute. reflexivity.
  - vm_compute. reflexivity.
  - vm_compute. reflexivity.
  - discriminate Hcreated.
Qed.

(** C5 as stated fails: a text that is the region and the instance type
    of a group is returned twice. *)
Lemma GenerateLabels_repeats_overlap :
  ¬ (∀ (d : ClusterDefinition string) (labels : list string),
       GenerateLabels_returns d labels →
       (∀ g, g ∈ Groups d → Region g ∈ labels ∧ InstanceType g ∈ labels)
       ∧ NoDup labels).
Proof.
  intros Hclaim.
  destruct (Hclaim Sample.overlap ["x"; "x"]) as [_ Hnd].
  - exists ["x"], ["x"]. split; [|split; [|done]].
    + by replace (elements (regionSet Sample.overlap)) with ["x"]
        by (vm_compute; reflexivity).
    + by replace (elements (instanceTypeSet Sample.overlap)) with ["x"]
        by (vm_compute; reflexivity).
  - apply NoDup_cons in Hnd as [Hx _]. apply Hx, list_elem_of_here.
Qed.

(** ** The further properties on the sample values *)

Lemma sample_valid_labels (labels : list string) :
  bool_decide (NoDup labels) = true → bool_decide (EmptyString ∈ labels) = false →
  valid_labels labels.
Proof.
  intros Hnd%bool_decide_eq_true Hne%bool_decide_eq_false. by split.
Defined.

Lemma sample_valid_groups (gs : list (ClusterGroup string)) :
  forallb (λ g, (- 2 ^ 63 <=? Size g) && (Size g <? 2 ^ 63)
                && bool_decide (NoDup (GroupLabels g))
                && negb (bool_decide (EmptyString ∈ GroupLabels g))) gs = true →
  Forall (@valid_group _ Sample.collaborators) gs.
Proof.
  induction gs as [|g gs IH]; simpl; [intros _; apply Forall_nil_2|].
  intros [[[[Hlo Hhi]%andb_prop Hnd%bool_decide_eq_true]%andb_prop
            Hne%negb_true_iff%bool_decide_eq_false]%andb_prop Hgs]%andb_prop.
  apply Forall_cons_2; [|by apply IH].
  split; [unfold strconv.in_int64; lia|]. split; [by split|]. intros pdef _. exact I.
Defined.

Lemma readCluster_flat_fields_witness :
  ID Sample.stored1 = default (ID (@zeroCluster string)) (bolt.Get Sample.entity1 bucketKeyID)
  ∧ Status Sample.stored1
    = default (Status (@zeroCluster string)) (bolt.Get Sample.entity1 bucketKeyStatus).
Proof.
  apply (@readCluster_flat_fields _ Sample.collaborators Sample.entity1 zeroCluster
           Sample.stored1).
  vm_compute. reflexivity.
Defined.

Lemma readCluster_ignores_unknown_key_witness :
  @readCluster _ Sample.collaborators (<["note" := Val "x"]> Sample.entity1) zeroCluster
  = @readCluster _ Sample.collaborators Sample.entity1 zeroCluster.
Proof.
  apply (@readCluster_ignores_unknown_key _ Sample.collaborators Sample.entity1
           "note" (Val "x") zeroCluster).
  apply (bool_decide_unpack _). vm_compute. exact I.
Defined.

Lemma ClusterDefinition_Size_sum_witness :
  ClusterDefinition_Size Sample.wide = 2 ^ 63 - 1.
Proof.
  apply (proj2 (ClusterDefinition_Size_sum Sample.wide)).
  unfold strconv.in_int64. simpl. lia.
Defined.

Lemma CreateCluster_succeeds_witness :
  ∃ s', @CreateCluster _ Sample.collaborators Sample.store1 300 Sample.cluster2
        = (s', Ok {| ID := "c2"; Status := "creating";
                     Definition_ := {| Groups := [Sample.group1] |};
                     Labels := ["green"]; CreatedAt := 300; UpdatedAt := 300 |}).
Proof.
  apply (@CreateCluster_succeeds _ Sample.collaborators Sample.store1 300 Sample.cluster2).
  - vm_compute. reflexivity.
  - intros Hid. discriminate Hid.
  - intros bkt Hbkt. vm_compute in Hbkt. injection Hbkt as <-. vm_compute. reflexivity.
  - apply sample_valid_labels; vm_compute; reflexivity.
  - apply sample_valid_groups. vm_compute. reflexivity.
  - exact I.
Defined.

Lemma CreateCluster_GetCluster_witness :
  ∃ c'', @GetCluster _ Sample.collaborators Sample.store1 "c1" = Ok c''
         ∧ cluster_equiv Sample.created1 c''.
Proof.
  apply (@CreateCluster_GetCluster _ Sample.collaborators sample_laws ∅ Sample.store1
           100 Sample.cluster1 Sample.created1).
  - vm_compute. reflexivity.
  - apply sample_valid_labels; vm_compute; reflexivity.
  - apply sample_valid_groups. vm_compute. reflexivity.
Defined.

Lemma UpdateCluster_GetCluster_witness :
  ∃ c'', @GetCluster _ Sample.collaborators Sample.store2 "c1" = Ok c''
         ∧ cluster_equiv Sample.updated1 c''.
Proof.
  apply (@UpdateCluster_GetCluster _ Sample.collaborators sample_laws Sample.store1
           Sample.store2 200 Sample.update1 Sample.updated1).
  - vm_compute. reflexivity.
  - apply sample_valid_labels; vm_compute; reflexivity.
  - apply sample_valid_groups. vm_compute. reflexivity.
Defined.

Lemma UpdateCluster_errors_witness :
  (∃ e, @UpdateCluster _ Sample.collaborators Sample.store1 200 zeroCluster
        = (Sample.store1, Err e) ∧ IsInvalidArgument e)
  ∧ (∃ e, @UpdateCluster _ Sample.collaborators ∅ 200 Sample.cluster2
          = (∅, Err e) ∧ IsNotFound e).
Proof.
  split.
  - apply (proj1 (@UpdateCluster_errors _ Sample.collaborators Sample.store1 200
                    zeroCluster)).
    reflexivity.
  - apply (proj2 (@UpdateCluster_errors _ Sample.collaborators ∅ 200 Sample.cluster2)).
    + intros Hid. discriminate Hid.
    + intros bkt Hbkt. vm_compute in Hbkt. discriminate Hbkt.
Defined.

Lemma UpdateCluster_succeeds_witness :
  ∃ s', @UpdateCluster _ Sample.collaborators Sample.store1 200 Sample.update1
        = (s', Ok {| ID := "c1"; Status := "created";
                     Definition_ := {| Groups := [Sample.group1] |};
                     Labels := ["green"]; CreatedAt := 7; UpdatedAt := 200 |}).
Proof.
  apply (@UpdateCluster_succeeds _ Sample.collaborators Sample.store1 200 Sample.update1
           Sample.clusters1 Sample.entity1 ∅ Sample.created1).
  - intros Hid. discriminate Hid.
  - vm_compute. reflexivity.
  - vm_compute. reflexivity.
  - vm_compute. reflexivity.
  - apply sample_valid_labels; vm_compute; reflexivity.
  - apply sample_valid_groups. vm_compute. reflexivity.
  - exact I.
  - exact I.
Defined.

Lemma DeleteCluster_twice_witness :
  (∃ e, DeleteCluster Sample.store3 "c1" = (Sample.store3, Err e) ∧ IsNotFound e)
  ∧ ∀ now (c : Cluster string),
      ID c = "c1" → @Validate _ Sample.collaborators c = None → ID c ≠ EmptyString →
      valid_labels (Labels c) →
      Forall (@valid_group _ Sample.collaborators) (Groups (Definition_ c)) →
      is_ok (@marshalTime _ Sample.collaborators now) →
      ∃ s'' c', @CreateCluster _ Sample.collaborators Sample.store3 now c = (s'', Ok c').
Proof.
  apply (@DeleteCluster_twice _ Sample.collaborators Sample.store1 Sample.store3 "c1"
           Sample.clusters1).
  - vm_compute. reflexivity.
  - vm_compute. reflexivity.
Defined.

Lemma GetCluster_other_identifier_witness :
  @GetCluster _ Sample.collaborators Sample.store1 "c2"
  = @GetCluster _ Sample.collaborators ∅ "c2"
  ∧ @GetCluster _ Sample.collaborators Sample.store2 "c2"
    = @GetCluster _ Sample.collaborators Sample.store1 "c2"
  ∧ @GetCluster _ Sample.collaborators Sample.store3 "c2"
    = @GetCluster _ Sample.collaborators Sample.store1 "c2".
Proof.
  split; [|split].
  - apply (proj1 (@GetCluster_other_identifier _ Sample.collaborators ∅ Sample.store1
                    100 Sample.cluster1 "c1" "c2" (Ok Sample.created1)
                    (Ok Sample.created1) (Ok tt))).
    + vm_compute. reflexivity.
    + intros Hid. discriminate Hid.
  - apply (proj1 (proj2 (@GetCluster_other_identifier _ Sample.collaborators
                           Sample.store1 Sample.store2 200 Sample.update1 "c1" "c2"
                           (Ok Sample.updated1) (Ok Sample.updated1) (Ok tt)))).
    + vm_compute. reflexivity.
    + intros Hid. discriminate Hid.
  - apply (proj2 (proj2 (@GetCluster_other_identifier _ Sample.collaborators
                           Sample.store1 Sample.store3 200 Sample.update1 "c1" "c2"
                           (Ok Sample.updated1) (Ok Sample.updated1) (Ok tt)))).
    + vm_compute. reflexivity.
    + intros Hid. discriminate Hid.
Defined.

Lemma ListClusters_GetCluster_witness :
  Forall2 (λ k c, @GetCluster _ Sample.collaborators Sample.store1 k = Ok c)
    (bolt.cursor Sample.clusters1).*1 [Sample.stored1]
  ∧ @ListClusters _ Sample.collaborators ∅ = Ok [].
Proof.
  destruct (@ListClusters_GetCluster _ Sample.collaborators Sample.store1
              [Sample.stored1]) as [Hsome _].
  destruct (@ListClusters_GetCluster _ Sample.collaborators ∅ []) as [_ Hnone].
  split.
  - apply (proj1 (Hsome Sample.clusters1 ltac:(vm_compute; reflexivity))).
    vm_compute. reflexivity.
  - apply Hnone. reflexivity.
Defined.

Lemma writeClusterDefinition_keys_witness :
  ∃ dbkt,
    bolt.Bucket Sample.definition1 bucketKeyDefinition = Some dbkt
    ∧ (∀ key, is_Some (dbkt !! key)
              ↔ ∃ k, (k < 2)%nat ∧ key = strconv.Itoa (Z.of_nat k))
    ∧ (∀ key, is_Some (dbkt !! key) → is_Some (bolt.Bucket dbkt key))
    ∧ size dbkt = 2%nat.
Proof.
  apply (@writeClusterDefinition_keys _ Sample.collaborators ∅ Sample.definition1
           (Definition_ Sample.cluster1)).
  vm_compute. reflexivity.
Defined.

Lemma readClusterDefinition_dense_run_witness :
  @readClusterDefinition _ Sample.collaborators Sample.gapped
  = Ok {| Groups := [Sample.decoded_group] |}
  ↔ (∀ k g, [Sample.decoded_group] !! k = Some g →
       ∃ gb, bolt.Bucket Sample.gapped_groups (strconv.Itoa (Z.of_nat k)) = Some gb
             ∧ @readClusterGroup _ Sample.collaborators gb = Ok g)
    ∧ bolt.Bucket Sample.gapped_groups (strconv.Itoa (Z.of_nat 1)) = None.
Proof.
  apply (@readClusterDefinition_dense_run _ Sample.collaborators Sample.gapped
           Sample.gapped_groups [Sample.decoded_group]).
  vm_compute. reflexivity.
Defined.

Lemma label_entry_relabels_witness :
  ∃ ibkt' c',
    @label_entry _ Sample.collaborators (λ _, 400) Sample.entity1 "c1" ["red"] []
    = Ok (ibkt', [c'])
    ∧ ID c' = "c1" ∧ Status c' = "creating"
    ∧ Forall2 group_equiv [Sample.group0; Sample.group1] (Groups (Definition_ c'))
    ∧ Labels c' = ["red"]
    ∧ CreatedAt c' = 100 ∧ UpdatedAt c' = 400
    ∧ ∃ c'', @readCluster _ Sample.collaborators ibkt' zeroCluster = Ok c''
             ∧ cluster_equiv c' c''.
Proof.
  apply (@label_entry_relabels _ Sample.collaborators sample_laws (λ _, 400) "c1"
           ["red"] [] Sample.entity1 ∅ Sample.created1 zeroCluster).
  - vm_compute. reflexivity.
  - apply sample_valid_labels; vm_compute; reflexivity.
  - apply sample_valid_groups. vm_compute. reflexivity.
  - apply sample_valid_labels; vm_compute; reflexivity.
  - exact I.
Defined.

Lemma writeCluster_replaces_witness :
  @writeCluster _ Sample.collaborators ∅ Sample.updated1 = Ok Sample.entity2.
Proof.
  apply (@writeCluster_replaces _ Sample.collaborators ∅ Sample.entity1 Sample.entity2
           Sample.created1 Sample.updated1).
  - vm_compute. reflexivity.
  - vm_compute. reflexivity.
Defined.
